(** * list_pool: a pool of singly-linked lists threaded through one vector

    Shallow embedding of [list_pool.hpp] and proofs about its handle
    discipline, its free chain and its iterator.

    Modelling conventions.
    - [Index] (the template parameter, [std::size_t] by default) is [N].
      The only arithmetic the class does on an [Index] is [index - 1] in
      [node]; on the sentinel [0] the unsigned subtraction wraps to the
      largest [Index], which no vector size reaches, so the access is out
      of bounds there.
    - [std::vector<Node>] is a [list Node]; [pool[i]] outside the vector is
      undefined behaviour, outcome [Undefined].
    - Methods that read or write the pool are computations in the monad
      [M]: they take the pool and finish with a value and a pool ([Ret]),
      with a C++ exception and the pool as it was when the exception left
      the method ([Throw]), with undefined behaviour, or never ([Diverges]).
    - A loop runs on fuel, one iteration per unit; [get_tail] and the
      traversal are given more fuel than a loop that ends can use, so that
      [Diverges] is the loop that never ends (lemmas [get_tail_loop_cycle]
      and [traverse_loop_cycle]).
    - Storage growth is taken to succeed and copying or assigning a [Value]
      not to throw: [std::bad_alloc], [std::length_error] and the exceptions
      of [Value] are outside the model, and so is the capacity of the
      vector. *)

From Stdlib Require Import NArith Lia String.
From stdpp Require Import base numbers option list.

Local Open Scope N_scope.

Abbreviation Index := N (only parsing).

(** [std::invalid_argument], the only exception the class throws itself. *)
Inductive exception : Type :=
| invalid_argument (what : string).

(** How a method call ends. *)
Inductive outcome (S A : Type) : Type :=
| Ret (a : A) (s : S)
| Throw (e : exception) (s : S)
| Undefined
| Diverges.
Arguments Ret {S A} a s.
Arguments Throw {S A} e s.
Arguments Undefined {S A}.
Arguments Diverges {S A}.

Section ListPool.
Context {Value : Type}.

(** ** Data *)

Record Node : Type := mkNode { Node_value : Value; Node_next : Index }.

Record list_pool : Type := mkPool {
  pool : list Node;
  free_node_list : Index
}.

(** [list_pool()]: no node, empty free chain. *)
Definition empty_pool : list_pool := {| pool := []; free_node_list := 0 |}.

(** ** The monad of methods *)

Definition M (A : Type) : Type := list_pool -> outcome list_pool A.

Definition ret {A} (a : A) : M A := fun p => Ret a p.

Definition bind {A B} (m : M A) (k : A -> M B) : M B := fun p =>
  match m p with
  | Ret a p' => k a p'
  | Throw e p' => Throw e p'
  | Undefined => Undefined
  | Diverges => Diverges
  end.

Definition throw {A} (e : exception) : M A := fun p => Throw e p.

Notation "'do' x <- m 'in' k" := (bind m (fun x => k))
  (at level 10, x name, m at level 100, k at level 200).
Notation "m '>>' k" := (bind m (fun _ => k))
  (at level 90, right associativity).

(** ** Observers *)

Definition pool_size (p : list_pool) : N := N.of_nat (length (pool p)).

Definition size : M N := fun p => Ret (pool_size p) p.

Definition end_ : Index := 0.

Definition new_list : Index := end_.

Definition is_empty (head : Index) : bool := end_ =? head.

(** ** Node access

    [pool[index - 1]], as a pure lookup: [None] is an access outside the
    vector.  For the sentinel the unsigned [index - 1] is the largest
    [Index], beyond the end of every vector. *)
Definition node_at (p : list_pool) (index : Index) : option Node :=
  if index =? 0 then None else pool p !! N.to_nat (index - 1).

(** [self.node(index)] read. *)
Definition node (index : Index) : M Node := fun p =>
  match node_at p index with
  | Some nd => Ret nd p
  | None => Undefined
  end.

(** The pool with [pool[index - 1]] replaced. *)
Definition store_node (p : list_pool) (index : Index) (nd : Node) : list_pool :=
  {| pool := <[N.to_nat (index - 1) := nd]> (pool p);
     free_node_list := free_node_list p |}.

(** A write through the reference [self.node(index)]. *)
Definition node_assign (index : Index) (f : Node -> Node) : M unit := fun p =>
  match node_at p index with
  | Some nd => Ret tt (store_node p index (f nd))
  | None => Undefined
  end.

Definition assign_value (v : Value) (nd : Node) : Node :=
  {| Node_value := v; Node_next := Node_next nd |}.

Definition assign_next (n : Index) (nd : Node) : Node :=
  {| Node_value := Node_value nd; Node_next := n |}.

Definition get_free_node_list : M Index := fun p => Ret (free_node_list p) p.

Definition set_free_node_list (i : Index) : M unit := fun p =>
  Ret tt {| pool := pool p; free_node_list := i |}.

(** [self.pool.emplace_back(value, next)], when the vector can grow: the
    [std::bad_alloc] or [std::length_error] of a vector that cannot is not
    modelled. *)
Definition emplace_back (v : Value) (n : Index) : M unit := fun p =>
  Ret tt {| pool := pool p ++ [mkNode v n];
            free_node_list := free_node_list p |}.

(** ** The two range checks *)

Definition check_index1 (index : Index) : M unit := fun p =>
  if pool_size p <? index
  then Throw (invalid_argument
                "the value of the provided index is invalid, too big") p
  else Ret tt p.

Definition check_index2 (index : Index) : M unit :=
  if is_empty index
  then throw (invalid_argument "the list should not be empty")
  else check_index1 index.

(** ** value and next

    Both return a reference; the read form and the assignment through the
    returned reference are modelled apart. *)

Definition value (index : Index) : M Value :=
  check_index2 index >>
  do nd <- node index in
  ret (Node_value nd).

Definition set_value (index : Index) (v : Value) : M unit :=
  check_index2 index >>
  node_assign index (assign_value v).

Definition next (index : Index) : M Index :=
  check_index2 index >>
  do nd <- node index in
  ret (Node_next nd).

Definition set_next (index : Index) (n : Index) : M unit :=
  check_index2 index >>
  node_assign index (assign_next n).

(** ** get_tail

    The [while (true)] loop, one iteration per unit of fuel. *)
Fixpoint get_tail_loop (fuel : nat) (p : list_pool) (index : Index)
  : outcome list_pool Index :=
  match fuel with
  | O => Diverges
  | S fuel' =>
      match node_at p index with
      | None => Undefined
      | Some nd =>
          let next := Node_next nd in
          if is_empty next then Ret index p
          else get_tail_loop fuel' p next
      end
  end.

(** A walk that has made more iterations than the pool has nodes has been
    at one node twice and never ends (lemma [get_tail_loop_cycle] below), so
    this much fuel decides the loop. *)
Definition get_tail (index : Index) : M Index := fun p =>
  get_tail_loop (S (length (pool p))) p index.

(** ** Insertion *)

Definition fpush_front (value : Value) (head : Index) : M Index :=
  check_index1 head >>
  do fnl <- get_free_node_list in
  if is_empty fnl then
    emplace_back value head >>
    do newhead <- size in
    ret newhead
  else
    let newhead := fnl in
    do nd <- node newhead in
    set_free_node_list (Node_next nd) >>
    node_assign newhead (assign_value value) >>
    node_assign newhead (assign_next head) >>
    ret newhead.

Definition fpush_back (value : Value) (head : Index) : M Index :=
  if is_empty head then fpush_front value head
  else
    do tail <- get_tail head in
    do fnl <- get_free_node_list in
    (if is_empty fnl then
       emplace_back value end_ >>
       do sz <- size in
       set_next tail sz
     else
       set_next tail fnl >>
       do nd <- node fnl in
       set_free_node_list (Node_next nd) >>
       node_assign fnl (assign_value value) >>
       node_assign fnl (assign_next end_)) >>
    ret head.

Definition push_front (value : Value) (head : Index) : M Index :=
  fpush_front value head.

Definition push_back (val : Value) (head : Index) : M Index :=
  fpush_back val head.

(** ** Removal *)

Definition free (head : Index) : M Index :=
  if is_empty head then ret head
  else
    check_index1 head >>
    do nd <- node head in
    let next := Node_next nd in
    do fnl <- get_free_node_list in
    node_assign head (assign_next fnl) >>
    set_free_node_list head >>
    ret next.

Definition free_list (head : Index) : M Index :=
  if is_empty head then ret head
  else
    check_index1 head >>
    do tail <- get_tail head in
    do fnl <- get_free_node_list in
    node_assign tail (assign_next fnl) >>
    set_free_node_list head >>
    ret new_list.

(** ** The iterator

    [Iter] holds the address of its pool and the current handle.  Its
    methods only read the pool: they are computations that return their
    result together with the handles of the nodes they have dereferenced, in
    order, or [None] where a dereference is outside the vector. *)

Record Iter : Type := mkIter { Iter_pool : N; current : Index }.

Definition R (A : Type) : Type := list_pool -> option (A * list Index).

Definition Iter_node (index : Index) : R Node := fun p =>
  match node_at p index with
  | Some nd => Some (nd, [index])
  | None => None
  end.

Definition Iter_update (self : Iter) : R Iter := fun p =>
  if negb (current self =? 0) then
    match Iter_node (current self) p with
    | Some (nd, reads) =>
        Some ({| Iter_pool := Iter_pool self; current := Node_next nd |}, reads)
    | None => None
    end
  else Some (self, []).

Definition Iter_value (self : Iter) : R Value := fun p =>
  match Iter_node (current self) p with
  | Some (nd, reads) => Some (Node_value nd, reads)
  | None => None
  end.

(** [operator ++ ()] returns the advanced iterator. *)
Definition Iter_preincrement (self : Iter) : R Iter := Iter_update self.

(** [operator ++ (int)] returns the copy made before the advance, and
    leaves the iterator advanced: the pair is (copy, iterator). *)
Definition Iter_postincrement (self : Iter) : R (Iter * Iter) := fun p =>
  let copy := self in
  match Iter_update self p with
  | Some (self', reads) => Some ((copy, self'), reads)
  | None => None
  end.

Definition Iter_deref (self : Iter) : R Value := Iter_value self.

Definition Iter_eq (self rhs : Iter) : bool :=
  (Iter_pool self =? Iter_pool rhs) && (current self =? current rhs).

Definition Iter_ne (self rhs : Iter) : bool := negb (Iter_eq self rhs).

(** [begin(index)] and [end(index)] of the pool at address [this]. *)
Definition begin_ (this : N) (index : Index) : Iter :=
  {| Iter_pool := this; current := index |}.

Definition end_iter (this : N) (_ : Index) : Iter :=
  {| Iter_pool := this; current := end_ |}.

(** ** Traversal

    The loop a client writes over a list: start at [begin(head)], stop when
    the iterator equals [end(head)], at each round dereference the iterator
    and then advance it with [++].  One iteration per unit of fuel. *)
Fixpoint traverse_loop (fuel : nat) (p : list_pool) (it last : Iter)
  : outcome list_pool (list Value) :=
  match fuel with
  | O => Diverges
  | S fuel' =>
      if Iter_ne it last then
        match Iter_deref it p with
        | None => Undefined
        | Some (v, _) =>
            match Iter_preincrement it p with
            | None => Undefined
            | Some (it', _) =>
                match traverse_loop fuel' p it' last with
                | Ret vs p' => Ret (v :: vs) p'
                | other => other
                end
            end
        end
      else Ret [] p
  end.

(** As for [get_tail], a loop that has made more iterations than the pool
    has nodes never ends (lemma [traverse_loop_cycle] below). *)
Definition traverse (head : Index) : M (list Value) := fun p =>
  traverse_loop (S (S (length (pool p)))) p (begin_ 0 head) (end_iter 0 head).

(** ** Vocabulary of the statements *)

(** [lseg p h l t]: following [next] from handle [h] visits exactly the
    nodes [l], in order, and arrives at [t]. *)
Fixpoint lseg (p : list_pool) (h : Index) (l : list Index) (t : Index) : Prop :=
  match l with
  | [] => h = t
  | i :: l' =>
      h = i /\ exists nd, node_at p i = Some nd /\ lseg p (Node_next nd) l' t
  end.

(** [chain p h l]: [h] heads a list that reaches the sentinel, and [l] are
    its nodes. *)
Definition chain (p : list_pool) (h : Index) (l : list Index) : Prop :=
  lseg p h l end_.

(** The node [i] is met when following [next] from handle [h]. *)
Inductive reachable (p : list_pool) : Index -> Index -> Prop :=
| reachable_here h nd :
    node_at p h = Some nd -> reachable p h h
| reachable_next h nd i :
    node_at p h = Some nd -> reachable p (Node_next nd) i -> reachable p h i.

Definition value_at (p : list_pool) (i : Index) : option Value :=
  Node_value <$> node_at p i.

Definition next_at (p : list_pool) (i : Index) : option Index :=
  Node_next <$> node_at p i.

(** Successive [push_back] calls, each on the head the previous one
    returned. *)
Fixpoint push_back_all (vs : list Value) (head : Index) : M Index :=
  match vs with
  | [] => ret head
  | v :: vs' => do head' <- push_back v head in push_back_all vs' head'
  end.

(** ** Calls of the public interface

    The calls that touch the pool.  [new_list], [end], [is_empty] and the
    iterator's own methods read at most, [size] and [capacity] observe the
    vector, and [reserve] changes only the capacity, which the model does
    not hold. *)

Inductive call : Type :=
| call_reserve (n : N)
| call_value (index : Index)
| call_set_value (index : Index) (v : Value)
| call_next (index : Index)
| call_set_next (index : Index) (n : Index)
| call_deref_assign (index : Index) (v : Value)
| call_push_front (v : Value) (head : Index)
| call_push_back (v : Value) (head : Index)
| call_free (head : Index)
| call_free_list (head : Index).

Inductive reply : Type :=
| reply_unit
| reply_value (v : Value)
| reply_index (i : Index).

(** [reserve(n)] when it succeeds; the capacity is not part of the pool
    here, and a failed reservation throws with the vector as it was. *)
Definition reserve (n : N) : M unit := ret tt.

(** [*begin(index) = v]: a write through the reference that the iterator's
    [operator *] returns. *)
Definition deref_assign (index : Index) (v : Value) : M unit :=
  node_assign index (assign_value v).

Definition exec (c : call) : M reply :=
  match c with
  | call_reserve n => reserve n >> ret reply_unit
  | call_value index => do v <- value index in ret (reply_value v)
  | call_set_value index v => set_value index v >> ret reply_unit
  | call_next index => do n <- next index in ret (reply_index n)
  | call_set_next index n => set_next index n >> ret reply_unit
  | call_deref_assign index v => deref_assign index v >> ret reply_unit
  | call_push_front v head =>
      do h <- push_front v head in ret (reply_index h)
  | call_push_back v head =>
      do h <- push_back v head in ret (reply_index h)
  | call_free head => do h <- free head in ret (reply_index h)
  | call_free_list head => do h <- free_list head in ret (reply_index h)
  end.

(** The pool a caller is left with: after a return or after catching the
    exception.  There is none after undefined behaviour or in a call that
    does not end. *)
Definition pool_after {A} (o : outcome list_pool A) : option list_pool :=
  match o with
  | Ret _ p' => Some p'
  | Throw _ p' => Some p'
  | Undefined => None
  | Diverges => None
  end.

Fixpoint run (cs : list call) (p : list_pool) : option list_pool :=
  match cs with
  | [] => Some p
  | c :: cs' =>
      match pool_after (exec c p) with
      | Some p' => run cs' p'
      | None => None
      end
  end.

(** [walk n p index]: the handle the loop of [get_tail] is at after [n]
    iterations that did not leave the loop, if it gets that far. *)
Fixpoint walk (n : nat) (p : list_pool) (index : Index) : option Index :=
  match n with
  | O => Some index
  | S n' =>
      match node_at p index with
      | None => None
      | Some nd =>
          if is_empty (Node_next nd) then None else walk n' p (Node_next nd)
      end
  end.

(** [grows m]: however [m] ends, the pool it leaves has at least as many
    nodes as the pool it started from. *)
Definition grows {A} (m : M A) : Prop :=
  forall p,
    match m p with
    | Ret _ p' | Throw _ p' => pool_size p <= pool_size p'
    | Undefined | Diverges => True
    end.

(** ** A client and the lists it holds

    The pool keeps no record of which handles are in use; to speak of the
    lists of a client the state is extended with the heads the client
    holds.  A call that takes a head and returns one hands the list over:
    the head passed in is dropped and the head returned, unless it is the
    sentinel, is held from then on. *)

Record client : Type := mkClient { store : list_pool; lists : list Index }.

Definition hand_over (head got : Index) (held : list Index) : list Index :=
  (if got =? 0 then [] else [got]) ++ filter (fun h => h <> head) held.

Definition track (c : call) (r : reply) (held : list Index) : list Index :=
  match c, r with
  | call_push_front _ head, reply_index got
  | call_push_back _ head, reply_index got
  | call_free head, reply_index got
  | call_free_list head, reply_index got => hand_over head got held
  | _, _ => held
  end.

Definition client_exec (c : call) (st : client) : option client :=
  match exec c (store st) with
  | Ret r p' => Some {| store := p'; lists := track c r (lists st) |}
  | Throw _ p' => Some {| store := p'; lists := lists st |}
  | Undefined | Diverges => None
  end.

Definition fresh_client : client := {| store := empty_pool; lists := [] |}.

(** States a client can bring about with any calls at all. *)
Inductive public_state : client -> Prop :=
| public_fresh : public_state fresh_client
| public_call st c st' :
    public_state st -> client_exec c st = Some st' -> public_state st'.

(** [owned c st]: the call respects the lists.  A head passed to an
    insertion or a removal is the sentinel or the head of a list the client
    holds, and [next] is not assigned to. *)
Definition owned (c : call) (st : client) : Prop :=
  match c with
  | call_push_front _ head | call_push_back _ head
  | call_free head | call_free_list head => head = end_ \/ head ∈ lists st
  | call_set_next _ _ => False
  | _ => True
  end.

(** States a client brings about with such calls only. *)
Inductive owned_state : client -> Prop :=
| owned_fresh : owned_state fresh_client
| owned_call st c st' :
    owned_state st -> owned c st -> client_exec c st = Some st' ->
    owned_state st'.

Definition in_a_list (st : client) (i : Index) : Prop :=
  exists h, h ∈ lists st /\ reachable (store st) h i.

Definition in_free_chain (st : client) (i : Index) : Prop :=
  reachable (store st) (free_node_list (store st)) i.

(** Every node is in a list the client holds or in the free chain, and not
    in both. *)
Definition partitioned (st : client) : Prop :=
  forall i, 1 <= i <= pool_size (store st) ->
    (in_a_list st i \/ in_free_chain st i) /\
    ~ (in_a_list st i /\ in_free_chain st i).

(** The handles [1], ..., [n]. *)
Definition handles (n : nat) : list Index := N.of_nat <$> seq 1 n.

(** The invariant behind [partitioned]: the lists held and the free chain
    all reach the sentinel, and their nodes together are the handles
    [1], ..., [size()], each once. *)
Definition well_formed (st : client) : Prop :=
  exists (ls : list (list Index)) (fl : list Index),
    Forall2 (chain (store st)) (lists st) ls /\
    Forall (fun h => h <> 0) (lists st) /\
    chain (store st) (free_node_list (store st)) fl /\
    concat ls ++ fl ≡ₚ handles (length (pool (store st))).

(** ** More vocabulary: other ways of using the interface *)

(** Successive [push_front] calls, each on the head the previous one
    returned. *)
Fixpoint push_front_all (vs : list Value) (head : Index) : M Index :=
  match vs with
  | [] => ret head
  | v :: vs' => do head' <- push_front v head in push_front_all vs' head'
  end.

(** The head a call works on, for the four calls that take one. *)
Definition call_head (c : call) : option Index :=
  match c with
  | call_push_front _ head | call_push_back _ head
  | call_free head | call_free_list head => Some head
  | _ => None
  end.

(** Freeing a list node by node, the way a caller without [free_list]
    would: [while (!is_empty(head)) head = free(head);], one iteration per
    unit of fuel. *)
Fixpoint free_each (fuel : nat) (head : Index) : M Index :=
  match fuel with
  | O => fun _ => Diverges
  | S fuel' =>
      if is_empty head then ret head
      else do head' <- free head in free_each fuel' head'
  end.

End ListPool.

Arguments Node : clear implicits.
Arguments list_pool : clear implicits.
Arguments M : clear implicits.
Arguments call : clear implicits.
Arguments reply : clear implicits.
Arguments client : clear implicits.

(** ** Pools of numbers used in the examples *)

(** After [push_back(10, 0)] and [push_back(20, 1)] on a fresh pool. *)
Definition two_nodes : list_pool N :=
  {| pool := [mkNode 10 2; mkNode 20 0]; free_node_list := 0 |}.

(** After [push_front(1, 0)] and [free(1)]. *)
Definition freed_one : list_pool N :=
  {| pool := [mkNode 1 0]; free_node_list := 1 |}.

(** After [push_front(1, 0)], [free(1)] and [free(1)] again. *)
Definition double_freed : list_pool N :=
  {| pool := [mkNode 1 1]; free_node_list := 1 |}.

(** After [push_front(1, 0)] and [next(1) = 1]. *)
Definition looped : list_pool N :=
  {| pool := [mkNode 1 1]; free_node_list := 0 |}.

(** After [push_front(10, 0)], [push_front(20, 0)] and [free(2)]: the list
    headed by [1] and the node [2] on the free chain. *)
Definition one_held_one_free : list_pool N :=
  {| pool := [mkNode 10 0; mkNode 20 0]; free_node_list := 2 |}.

(** After [push_front(1, 0)], [push_front(2, 1)] and [free(1)], the client
    holding the list headed by [2]. *)
Definition freed_inside : client N :=
  {| store := {| pool := [mkNode 1 0; mkNode 2 1]; free_node_list := 1 |};
     lists := [2] |}.

(** After [push_front(10, 0)] and [push_front(20, 0)]: the client holds two
    lists of one node each. *)
Definition two_lists : client N :=
  {| store := {| pool := [mkNode 10 0; mkNode 20 0]; free_node_list := 0 |};
     lists := [2; 1] |}.

(** * Proofs *)

Section ListPoolFacts.
Context {Value : Type}.
Implicit Types (p q : list_pool Value) (nd : Node Value) (v : Value).
Implicit Types (index head tail h i j : N) (l fl : list N).
Implicit Types (c : call Value) (cs : list (call Value)).
Implicit Types (st : client Value) (hs : list N) (ls : list (list N)).

(** ** Node access and the range [1, size] *)

Lemma node_at_Some p i nd :
  node_at p i = Some nd <-> i <> 0 /\ pool p !! N.to_nat (i - 1) = Some nd.
Proof.
  unfold node_at. destruct (N.eqb_spec i 0) as [->|Hi]; split.
  - discriminate.
  - intros [H _]. done.
  - intros H. done.
  - intros [_ H]. done.
Qed.

Lemma node_at_in_range p i nd :
  node_at p i = Some nd -> 1 <= i <= pool_size p.
Proof.
  intros [Hi Hl%lookup_lt_Some]%node_at_Some. unfold pool_size. lia.
Qed.

Lemma node_at_is_Some p i :
  1 <= i <= pool_size p -> exists nd, node_at p i = Some nd.
Proof.
  unfold pool_size. intros Hi.
  destruct (lookup_lt_is_Some_2 (pool p) (N.to_nat (i - 1))) as [nd Hnd];
    [lia|].
  exists nd. apply node_at_Some. split; [lia | done].
Qed.

Lemma node_at_None p i :
  i = 0 \/ pool_size p < i -> node_at p i = None.
Proof.
  intros Hi. destruct (node_at p i) as [nd|] eqn:E; [|done].
  apply node_at_in_range in E. lia.
Qed.

Lemma node_at_sentinel p : node_at p 0 = None.
Proof. done. Qed.

(** ** The range checks, as equations *)

Lemma is_empty_true h : is_empty h = true <-> h = 0.
Proof. unfold is_empty, end_. rewrite N.eqb_eq. split; congruence. Qed.

Lemma is_empty_false h : is_empty h = false <-> h <> 0.
Proof. unfold is_empty, end_. rewrite N.eqb_neq. split; congruence. Qed.

Lemma check_index1_ok p index :
  index <= pool_size p -> check_index1 index p = Ret tt p.
Proof.
  intros H. unfold check_index1.
  destruct (N.ltb_spec (pool_size p) index); [lia | done].
Qed.

Lemma check_index1_throws p index :
  pool_size p < index ->
  check_index1 index p =
  Throw (invalid_argument
           "the value of the provided index is invalid, too big") p.
Proof.
  intros H. unfold check_index1.
  destruct (N.ltb_spec (pool_size p) index); [done | lia].
Qed.

Lemma check_index2_ok p index :
  1 <= index <= pool_size p -> check_index2 index p = Ret tt p.
Proof.
  intros H. unfold check_index2.
  destruct (is_empty index) eqn:E.
  - apply is_empty_true in E. lia.
  - apply check_index1_ok. lia.
Qed.

Lemma check_index2_throws p index :
  index = 0 \/ pool_size p < index ->
  exists what, check_index2 index p = Throw (invalid_argument what) p.
Proof.
  intros H. unfold check_index2.
  destruct (is_empty index) eqn:E.
  - eexists. reflexivity.
  - apply is_empty_false in E. eexists. apply check_index1_throws. lia.
Qed.


(** ** Pools after a write or an append *)

Lemma pool_size_store p i nd : pool_size (store_node p i nd) = pool_size p.
Proof. unfold pool_size, store_node. simpl. by rewrite length_insert. Qed.

Lemma node_at_store_eq p i nd nd' :
  node_at p i = Some nd -> node_at (store_node p i nd') i = Some nd'.
Proof.
  intros [Hi Hl]%node_at_Some. apply node_at_Some. split; [done|].
  simpl. apply list_lookup_insert_eq. by eapply lookup_lt_Some.
Qed.

Lemma node_at_store_ne p i j nd' :
  i <> 0 -> j <> i -> node_at (store_node p i nd') j = node_at p j.
Proof.
  intros Hi Hj. unfold node_at, store_node. simpl.
  destruct (N.eqb_spec j 0); [done|].
  apply list_lookup_insert_ne. lia.
Qed.

Lemma store_node_twice p i nd nd' :
  store_node (store_node p i nd) i nd' = store_node p i nd'.
Proof. unfold store_node. simpl. by rewrite list_insert_insert_eq. Qed.

Lemma pool_size_free_node_list p f :
  pool_size {| pool := pool p; free_node_list := f |} = pool_size p.
Proof. done. Qed.

Lemma node_at_free_node_list p f i :
  node_at {| pool := pool p; free_node_list := f |} i = node_at p i.
Proof. done. Qed.

Lemma pool_size_emplace p nd f :
  pool_size {| pool := pool p ++ [nd]; free_node_list := f |} = pool_size p + 1.
Proof. unfold pool_size. simpl. rewrite length_app. simpl. lia. Qed.

Lemma node_at_emplace_old p nd f i nd' :
  node_at p i = Some nd' ->
  node_at {| pool := pool p ++ [nd]; free_node_list := f |} i = Some nd'.
Proof.
  intros [Hi Hl]%node_at_Some. apply node_at_Some. split; [done|].
  simpl. by apply lookup_app_l_Some.
Qed.

Lemma node_at_emplace_new p nd f :
  node_at {| pool := pool p ++ [nd]; free_node_list := f |} (pool_size p + 1)
  = Some nd.
Proof.
  apply node_at_Some. split; [lia|]. simpl.
  apply list_lookup_middle. unfold pool_size. lia.
Qed.

(** ** The methods, as equations *)

Lemma node_assign_eq p i f nd :
  node_at p i = Some nd -> node_assign i f p = Ret tt (store_node p i (f nd)).
Proof. intros H. unfold node_assign. by rewrite H. Qed.

Lemma get_tail_loop_out_of_range fuel p index :
  node_at p index = None -> get_tail_loop (S fuel) p index = Undefined.
Proof. intros H. simpl. by rewrite H. Qed.

Lemma fpush_front_throws p v head :
  pool_size p < head ->
  exists what, fpush_front v head p = Throw (invalid_argument what) p.
Proof.
  intros H. unfold fpush_front, bind.
  rewrite check_index1_throws by exact H. by eexists.
Qed.

Lemma fpush_front_fresh p v head :
  head <= pool_size p -> free_node_list p = 0 ->
  fpush_front v head p =
  Ret (pool_size p + 1)
      {| pool := pool p ++ [mkNode v head]; free_node_list := 0 |}.
Proof.
  intros Hh Hf. unfold fpush_front, bind.
  rewrite check_index1_ok by exact Hh.
  unfold get_free_node_list. rewrite Hf. simpl.
  unfold size, ret. by rewrite pool_size_emplace, Hf.
Qed.

Lemma fpush_front_recycle p v head nd :
  head <= pool_size p ->
  node_at p (free_node_list p) = Some nd ->
  fpush_front v head p =
  Ret (free_node_list p)
      (store_node {| pool := pool p; free_node_list := Node_next nd |}
                  (free_node_list p) (mkNode v head)).
Proof.
  intros Hh Hnd. unfold fpush_front, bind.
  rewrite check_index1_ok by exact Hh.
  unfold get_free_node_list.
  destruct (is_empty (free_node_list p)) eqn:E.
  { apply is_empty_true in E. rewrite E in Hnd. done. }
  unfold node. rewrite Hnd. unfold set_free_node_list.
  erewrite node_assign_eq by (rewrite node_at_free_node_list; exact Hnd).
  erewrite node_assign_eq by (eapply node_at_store_eq;
                              rewrite node_at_free_node_list; exact Hnd).
  by rewrite store_node_twice.
Qed.

Lemma get_tail_loop_Ret fuel p index tail p' :
  get_tail_loop fuel p index = Ret tail p' ->
  p' = p /\ exists nd, node_at p tail = Some nd /\ Node_next nd = 0.
Proof.
  revert index. induction fuel as [|fuel IH]; intros index; simpl; [done|].
  destruct (node_at p index) as [nd|] eqn:Hnd; [|done].
  destruct (is_empty (Node_next nd)) eqn:E.
  - intros [= <- <-]. apply is_empty_true in E. eauto.
  - apply IH.
Qed.

Lemma get_tail_Ret p head tail p' :
  get_tail head p = Ret tail p' ->
  p' = p /\ exists nd, node_at p tail = Some nd /\ Node_next nd = 0.
Proof. apply get_tail_loop_Ret. Qed.

Lemma get_tail_never_throws p head e p' : get_tail head p <> Throw e p'.
Proof.
  unfold get_tail. generalize (S (length (pool p))). intros fuel. revert head.
  induction fuel as [|fuel IH]; intros head; simpl; [done|].
  destruct (node_at p head) as [nd|]; [|done].
  destruct (is_empty (Node_next nd)); [done | apply IH].
Qed.

Lemma set_next_eq p i n nd :
  node_at p i = Some nd ->
  set_next i n p = Ret tt (store_node p i (assign_next n nd)).
Proof.
  intros H. unfold set_next, bind.
  rewrite check_index2_ok by (eapply node_at_in_range; exact H).
  by apply node_assign_eq.
Qed.

Lemma fpush_back_sentinel p v : fpush_back v 0 p = fpush_front v 0 p.
Proof. done. Qed.

Lemma fpush_back_fresh p v head tail nd :
  head <> 0 -> get_tail head p = Ret tail p ->
  node_at p tail = Some nd -> free_node_list p = 0 ->
  fpush_back v head p =
  Ret head
      (store_node {| pool := pool p ++ [mkNode v 0]; free_node_list := 0 |}
                  tail (assign_next (pool_size p + 1) nd)).
Proof.
  intros Hh Ht Hnd Hf. unfold fpush_back.
  apply is_empty_false in Hh. rewrite Hh. unfold bind at 1. rewrite Ht.
  unfold bind at 1, get_free_node_list. rewrite Hf.
  change (is_empty 0) with true. cbv iota.
  unfold bind, emplace_back, size.
  erewrite set_next_eq by (eapply node_at_emplace_old; exact Hnd).
  by rewrite pool_size_emplace, Hf.
Qed.

Lemma fpush_back_recycle p v head tail nd ndf :
  head <> 0 -> get_tail head p = Ret tail p ->
  node_at p tail = Some nd ->
  node_at (store_node p tail (assign_next (free_node_list p) nd))
          (free_node_list p) = Some ndf ->
  fpush_back v head p =
  Ret head
      (store_node
         {| pool :=
              pool (store_node p tail (assign_next (free_node_list p) nd));
            free_node_list := Node_next ndf |}
         (free_node_list p) (mkNode v 0)).
Proof.
  intros Hh Ht Hnd Hf. unfold fpush_back.
  apply is_empty_false in Hh. rewrite Hh. unfold bind at 1. rewrite Ht.
  unfold bind at 1, get_free_node_list.
  destruct (is_empty (free_node_list p)) eqn:E.
  { apply is_empty_true in E. rewrite E in Hf. done. }
  unfold bind at 1. unfold bind at 1. erewrite set_next_eq by exact Hnd.
  unfold bind at 1, node. rewrite Hf.
  unfold bind at 1, set_free_node_list. simpl free_node_list.
  unfold bind at 1.
  erewrite node_assign_eq by (rewrite node_at_free_node_list; exact Hf).
  erewrite node_assign_eq
    by (eapply node_at_store_eq; rewrite node_at_free_node_list; exact Hf).
  by rewrite store_node_twice.
Qed.

Lemma free_sentinel p : free 0 p = Ret 0 p.
Proof. done. Qed.

Lemma free_throws p head :
  head <> 0 -> pool_size p < head ->
  exists what, free head p = Throw (invalid_argument what) p.
Proof.
  intros Hh Hs. unfold free. apply is_empty_false in Hh. rewrite Hh.
  unfold bind. rewrite check_index1_throws by exact Hs. by eexists.
Qed.

Lemma free_in_range p head nd :
  node_at p head = Some nd ->
  free head p =
  Ret (Node_next nd)
      {| pool := pool (store_node p head (assign_next (free_node_list p) nd));
         free_node_list := head |}.
Proof.
  intros Hnd. pose proof (node_at_in_range _ _ _ Hnd) as Hr.
  unfold free. destruct (is_empty head) eqn:E.
  { apply is_empty_true in E. lia. }
  unfold bind. rewrite check_index1_ok by lia.
  unfold node. rewrite Hnd. unfold get_free_node_list.
  erewrite node_assign_eq by exact Hnd. done.
Qed.

Lemma free_list_sentinel p : free_list 0 p = Ret 0 p.
Proof. done. Qed.

Lemma free_list_throws p head :
  head <> 0 -> pool_size p < head ->
  exists what, free_list head p = Throw (invalid_argument what) p.
Proof.
  intros Hh Hs. unfold free_list. apply is_empty_false in Hh. rewrite Hh.
  unfold bind. rewrite check_index1_throws by exact Hs. by eexists.
Qed.

Lemma free_list_in_range p head tail nd :
  head <> 0 -> head <= pool_size p ->
  get_tail head p = Ret tail p -> node_at p tail = Some nd ->
  free_list head p =
  Ret 0
      {| pool := pool (store_node p tail (assign_next (free_node_list p) nd));
         free_node_list := head |}.
Proof.
  intros Hh Hs Ht Hnd. unfold free_list.
  apply is_empty_false in Hh. rewrite Hh.
  unfold bind. rewrite check_index1_ok by exact Hs. rewrite Ht.
  unfold get_free_node_list. erewrite node_assign_eq by exact Hnd. done.
Qed.

Lemma value_eq p h nd :
  node_at p h = Some nd -> value h p = Ret (Node_value nd) p.
Proof.
  intros H. unfold value, bind.
  rewrite check_index2_ok by (eapply node_at_in_range; exact H).
  unfold node. by rewrite H.
Qed.

Lemma next_eq p h nd :
  node_at p h = Some nd -> next h p = Ret (Node_next nd) p.
Proof.
  intros H. unfold next, bind.
  rewrite check_index2_ok by (eapply node_at_in_range; exact H).
  unfold node. by rewrite H.
Qed.

Lemma set_value_eq p i v nd :
  node_at p i = Some nd ->
  set_value i v p = Ret tt (store_node p i (assign_value v nd)).
Proof.
  intros H. unfold set_value, bind.
  rewrite check_index2_ok by (eapply node_at_in_range; exact H).
  by apply node_assign_eq.
Qed.

(** ** List segments *)

(** A segment depends on the [next] fields of its own nodes only. *)
Lemma lseg_ext_next p q h l t :
  (forall i, i ∈ l -> next_at q i = next_at p i) ->
  lseg p h l t -> lseg q h l t.
Proof.
  revert h. induction l as [|i l IH]; intros h Hext; simpl; [done|].
  intros [-> (nd & Hnd & Hl)]. split; [done|].
  assert (next_at q i = Some (Node_next nd)) as Hq.
  { rewrite Hext by left. unfold next_at. by rewrite Hnd. }
  unfold next_at in Hq. destruct (node_at q i) as [nd'|]; [|done].
  injection Hq as Hq. exists nd'. split; [done|]. rewrite Hq.
  apply IH; [|done]. intros j Hj. apply Hext. by right.
Qed.

Lemma lseg_ext p q h l t :
  (forall i, i ∈ l -> node_at q i = node_at p i) ->
  lseg p h l t -> lseg q h l t.
Proof.
  intros Hext. apply lseg_ext_next. intros i Hi. unfold next_at.
  by rewrite Hext.
Qed.

Lemma lseg_app p h l1 l2 t :
  lseg p h (l1 ++ l2) t <-> exists m, lseg p h l1 m /\ lseg p m l2 t.
Proof.
  revert h. induction l1 as [|i l1 IH]; intros h; simpl.
  - split; [eauto | by intros (m & -> & H)].
  - split.
    + intros [-> (nd & Hnd & (m & H1 & H2)%IH)]. exists m. eauto 6.
    + intros (m & [-> (nd & Hnd & H1)] & H2). split; [done|].
      exists nd. split; [done|]. apply IH. eauto.
Qed.

Lemma lseg_snoc p h l i t :
  lseg p h (l ++ [i]) t <->
  lseg p h l i /\ exists nd, node_at p i = Some nd /\ Node_next nd = t.
Proof.
  rewrite lseg_app. simpl. split.
  - intros (m & H1 & -> & nd & Hnd & Ht). eauto.
  - intros (H1 & nd & Hnd & Ht). exists i. eauto 6.
Qed.

Lemma lseg_in_range p h l t i :
  lseg p h l t -> i ∈ l -> 1 <= i <= pool_size p.
Proof.
  revert h. induction l as [|k l IH]; intros h; simpl.
  - intros _ Hi. by apply elem_of_nil in Hi.
  - intros [-> (nd & Hnd & Hl)] [->|Hi]%elem_of_cons.
    + by eapply node_at_in_range.
    + by eapply IH.
Qed.

Lemma lseg_head p h l t : lseg p h l t -> l = [] \/ exists l', l = h :: l'.
Proof. destruct l as [|i l]; simpl; [by left|]. intros [-> _]. eauto. Qed.

Lemma chain_sentinel p l : chain p 0 l -> l = [].
Proof.
  destruct l as [|i l]; [done|]. intros [<- (nd & Hnd & _)]. done.
Qed.

Lemma chain_nil p h : chain p h [] <-> h = 0.
Proof. done. Qed.

Lemma chain_cons_inv p h l :
  chain p h l -> h <> 0 ->
  exists nd l', l = h :: l' /\ node_at p h = Some nd /\
                chain p (Node_next nd) l'.
Proof.
  destruct l as [|i l]; simpl.
  - unfold chain. simpl. intros -> H. done.
  - intros [-> (nd & Hnd & Hl)] _. eauto.
Qed.

(** A list that reaches the sentinel has one sequence of nodes. *)
Lemma chain_det p h l1 l2 : chain p h l1 -> chain p h l2 -> l1 = l2.
Proof.
  revert h l2. induction l1 as [|i l1 IH]; intros h l2.
  - intros ->%chain_nil H2. symmetry. by eapply chain_sentinel.
  - intros [-> (nd & Hnd & H1)] H2.
    destruct l2 as [|k l2].
    { apply chain_nil in H2. subst. done. }
    destruct H2 as [<- (nd' & Hnd' & H2)].
    rewrite Hnd in Hnd'. injection Hnd' as <-. f_equal. by eapply IH.
Qed.

(** It does not pass twice through a node. *)
Lemma chain_NoDup p h l : chain p h l -> NoDup l.
Proof.
  revert h. induction l as [|i l IH]; intros h; [constructor|].
  intros Hc. pose proof Hc as [-> (nd & Hnd & Hl)].
  apply NoDup_cons_2; [|by eapply IH].
  intros (l1 & l2 & ->)%list_elem_of_split.
  apply lseg_app in Hl as (m & _ & Hm). pose proof Hm as [-> _].
  pose proof (chain_det _ _ _ _ Hc Hm) as Heq.
  apply (f_equal length) in Heq. simpl in Heq. rewrite length_app in Heq.
  simpl in Heq. lia.
Qed.

(** So it is no longer than the pool. *)
Lemma chain_length p h l : chain p h l -> (length l <= length (pool p))%nat.
Proof.
  intros Hc.
  assert (N.to_nat <$> l ⊆+ seq 1 (length (pool p))) as Hsub.
  { apply NoDup_submseteq.
    - apply NoDup_fmap_2; [apply _ | by eapply chain_NoDup].
    - intros x (i & -> & Hi)%list_elem_of_fmap.
      pose proof (lseg_in_range _ _ _ _ _ Hc Hi) as Hr. unfold pool_size in Hr.
      apply elem_of_seq. lia. }
  apply submseteq_length in Hsub. by rewrite length_fmap, length_seq in Hsub.
Qed.

Lemma get_tail_loop_chain fuel p h l tail :
  chain p h (l ++ [tail]) -> (length l < fuel)%nat ->
  get_tail_loop fuel p h = Ret tail p.
Proof.
  revert h fuel. induction l as [|i l IH]; intros h fuel Hc Hfuel;
    (destruct fuel as [|fuel]; [simpl in Hfuel; lia|]).
  - destruct Hc as [-> (nd & Hnd & Hn)]. simpl. rewrite Hnd.
    simpl in Hn. by rewrite Hn.
  - destruct Hc as [-> (nd & Hnd & Hl)]. simpl. rewrite Hnd.
    destruct (is_empty (Node_next nd)) eqn:E.
    + apply is_empty_true in E. rewrite E in Hl. apply chain_sentinel in Hl.
      by destruct l.
    + apply IH; [done | simpl in Hfuel; lia].
Qed.

Lemma get_tail_chain p h l tail :
  chain p h (l ++ [tail]) -> get_tail h p = Ret tail p.
Proof.
  intros Hc. unfold get_tail. eapply get_tail_loop_chain; [done|].
  apply chain_length in Hc. rewrite length_app in Hc. simpl in Hc. lia.
Qed.

Lemma reachable_lseg p h l t i : lseg p h l t -> i ∈ l -> reachable p h i.
Proof.
  revert h. induction l as [|k l IH]; intros h; simpl.
  - intros _ Hi. by apply elem_of_nil in Hi.
  - intros [-> (nd & Hnd & Hl)] [->|Hi]%elem_of_cons.
    + by eapply reachable_here.
    + eapply reachable_next; [done|]. by apply IH.
Qed.

Lemma reachable_chain p h l i : chain p h l -> (reachable p h i <-> i ∈ l).
Proof.
  intros Hc. split; [|by eapply reachable_lseg].
  intros Hr. revert l Hc. induction Hr as [h nd Hnd|h nd i Hnd Hr IH];
    intros l Hc.
  - destruct (chain_cons_inv _ _ _ Hc) as (? & l' & -> & _).
    { intros ->. done. }
    by left.
  - destruct (chain_cons_inv _ _ _ Hc) as (nd' & l' & -> & Hnd' & Hl).
    { intros ->. done. }
    rewrite Hnd in Hnd'. injection Hnd' as <-. right. by apply IH.
Qed.

Lemma reachable_in_range p h i : reachable p h i -> 1 <= i <= pool_size p.
Proof. induction 1; [by eapply node_at_in_range | done]. Qed.

(** ** The fuel of get_tail *)

Lemma get_tail_loop_Diverges fuel p index :
  get_tail_loop fuel p index = Diverges <-> is_Some (walk fuel p index).
Proof.
  revert index. induction fuel as [|fuel IH]; intros index; simpl.
  - split; [by eexists | done].
  - destruct (node_at p index) as [nd|].
    + destruct (is_empty (Node_next nd)); [|apply IH].
      split; [done | by intros [? ?]].
    + split; [done | by intros [? ?]].
Qed.

Lemma walk_add n m p index :
  walk (n + m) p index = walk n p index ≫= walk m p.
Proof.
  revert index. induction n as [|n IH]; intros index; simpl; [done|].
  destruct (node_at p index) as [nd|]; [|done].
  destruct (is_empty (Node_next nd)); [done | apply IH].
Qed.

Lemma walk_le n m p index :
  (n <= m)%nat -> is_Some (walk m p index) -> is_Some (walk n p index).
Proof.
  intros Hle. replace m with (n + (m - n))%nat by lia. rewrite walk_add.
  destruct (walk n p index); [by eexists | by intros [? ?]].
Qed.

Lemma walk_in_range n p index x :
  walk n p index = Some x -> is_Some (walk (S n) p index) ->
  1 <= x <= pool_size p.
Proof.
  intros Hx. replace (S n) with (n + 1)%nat by lia. rewrite walk_add, Hx.
  simpl. destruct (node_at p x) as [nd|] eqn:Hnd; [|by intros [? ?]].
  intros _. by eapply node_at_in_range.
Qed.

Lemma walk_cycle d p j :
  walk d p j = Some j -> forall k, walk (k * d) p j = Some j.
Proof.
  intros Hd. induction k as [|k IH]; [done|].
  simpl. rewrite walk_add, Hd. exact IH.
Qed.

Lemma list_dup_split {A} `{!EqDecision A} (us : list A) :
  ~ NoDup us -> exists u1 a u2 u3, us = u1 ++ a :: u2 ++ a :: u3.
Proof.
  induction us as [|a us IH]; intros Hnd.
  - destruct Hnd. constructor.
  - destruct (decide (a ∈ us)) as [Hin|Hin].
    + apply list_elem_of_split in Hin as (u2 & u3 & ->).
      by exists [], a, u2, u3.
    + destruct IH as (u1 & b & u2 & u3 & ->).
      { intros Hl. apply Hnd. by constructor. }
      by exists (a :: u1), b, u2, u3.
Qed.

(** A walk longer than the pool comes back to a node it has left, and then
    goes round for ever: more fuel does not end the loop. *)
Lemma get_tail_loop_cycle fuel p index :
  (length (pool p) < fuel)%nat ->
  get_tail_loop fuel p index = Diverges ->
  forall fuel', get_tail_loop fuel' p index = Diverges.
Proof.
  intros Hfuel Hdiv%get_tail_loop_Diverges fuel'.
  apply get_tail_loop_Diverges.
  set (at_step := fun k => default 0 (walk k p index)).
  set (xs := at_step <$> seq 0 fuel).
  assert (forall k, (k <= fuel)%nat -> walk k p index = Some (at_step k))
    as Hat.
  { intros k Hk. unfold at_step.
    destruct (walk_le k fuel p index Hk Hdiv) as [x ->]. done. }
  assert (~ NoDup xs) as Hdup.
  { intros Hnd.
    assert (N.to_nat <$> xs ⊆+ seq 1 (length (pool p))) as Hsub.
    { apply NoDup_submseteq; [by apply NoDup_fmap_2; [apply _|]|].
      intros y (x & -> & (k & -> & Hk%elem_of_seq)%list_elem_of_fmap)
        %list_elem_of_fmap.
      pose proof (walk_in_range k p index _ (Hat k ltac:(lia))) as Hr.
      unfold pool_size in Hr. apply elem_of_seq.
      assert (is_Some (walk (S k) p index)) as Hk'
        by (eapply walk_le; [|done]; lia).
      specialize (Hr Hk'). lia. }
    apply submseteq_length in Hsub.
    unfold xs in Hsub. rewrite !length_fmap, !length_seq in Hsub. lia. }
  apply list_dup_split in Hdup as (l1 & x & l2 & l3 & Hxs).
  set (a := length l1). set (b := S (length l1 + length l2)).
  assert (length xs = fuel) as Hlen
    by (unfold xs; by rewrite length_fmap, length_seq).
  assert (b < fuel)%nat as Hb.
  { rewrite <- Hlen, Hxs. rewrite !length_app. simpl. rewrite length_app.
    simpl. unfold b. lia. }
  assert (xs !! a = Some x) as Ha.
  { rewrite Hxs. by apply list_lookup_middle. }
  assert (xs !! b = Some x) as Hb'.
  { rewrite Hxs. change (l1 ++ x :: l2 ++ x :: l3) with
      (l1 ++ (x :: l2) ++ x :: l3). rewrite app_assoc.
    apply list_lookup_middle. rewrite length_app. simpl. unfold b. lia. }
  assert (forall k, (k < fuel)%nat -> xs !! k = Some (at_step k)) as Hxk.
  { intros k Hk. unfold xs. rewrite list_lookup_fmap.
    rewrite lookup_seq_lt by done. done. }
  rewrite Hxk in Ha by (unfold a, b in *; lia).
  rewrite Hxk in Hb' by done.
  injection Ha as Ha. injection Hb' as Hb'.
  pose proof (Hat a ltac:(unfold a, b in *; lia)) as Hwa.
  pose proof (Hat b ltac:(lia)) as Hwb.
  rewrite Ha in Hwa. rewrite Hb' in Hwb.
  set (d := (b - a)%nat).
  assert (walk d p x = Some x) as Hd.
  { replace b with (a + d)%nat in Hwb by (unfold d, a, b; lia).
    by rewrite walk_add, Hwa in Hwb. }
  apply (walk_le fuel' (a + fuel' * d)).
  { assert (1 <= d)%nat by (unfold d, a, b; lia). nia. }
  rewrite walk_add, Hwa. simpl. rewrite (walk_cycle d p x Hd). by eexists.
Qed.

(** ** What each method does to the nodes *)

Lemma node_at_emplace_ne p nd f j :
  j <> pool_size p + 1 ->
  node_at {| pool := pool p ++ [nd]; free_node_list := f |} j = node_at p j.
Proof.
  intros Hj. destruct (node_at p j) as [nd'|] eqn:E.
  - by apply node_at_emplace_old.
  - destruct (node_at (mkPool _ _) j) as [nd'|] eqn:E'; [|done].
    apply node_at_in_range in E'. rewrite pool_size_emplace in E'.
    destruct (node_at_is_Some p j) as [? ?]; [lia | congruence].
Qed.

Lemma fpush_front_nodes p v head :
  head <= pool_size p -> free_node_list p <= pool_size p ->
  let new := if free_node_list p =? 0 then pool_size p + 1
             else free_node_list p in
  exists p',
    fpush_front v head p = Ret new p' /\
    node_at p' new = Some (mkNode v head) /\
    (forall j, j <> new -> node_at p' j = node_at p j) /\
    pool_size p' =
      (if free_node_list p =? 0 then pool_size p + 1 else pool_size p) /\
    next_at p (free_node_list p) =
      (if free_node_list p =? 0 then None else Some (free_node_list p')) /\
    (free_node_list p = 0 -> free_node_list p' = 0).
Proof.
  intros Hh Hf new. subst new.
  destruct (N.eqb_spec (free_node_list p) 0) as [E|E].
  - eexists. split; [by apply fpush_front_fresh|].
    split; [apply node_at_emplace_new|].
    split; [intros j Hj; by apply node_at_emplace_ne|].
    split; [apply pool_size_emplace|].
    split; [|done]. unfold next_at. by rewrite E.
  - destruct (node_at_is_Some p (free_node_list p)) as [nd Hnd]; [lia|].
    eexists. split; [by eapply fpush_front_recycle|].
    split.
    { eapply node_at_store_eq. rewrite node_at_free_node_list. exact Hnd. }
    split.
    { intros j Hj. by rewrite node_at_store_ne. }
    split; [by rewrite pool_size_store|].
    split; [|done]. unfold next_at. by rewrite Hnd.
Qed.

Lemma chain_last_node p h l tail :
  chain p h (l ++ [tail]) ->
  lseg p h l tail /\ exists nd, node_at p tail = Some nd /\ Node_next nd = 0.
Proof. intros H. by apply lseg_snoc in H. Qed.

Lemma fpush_back_nodes p v head l tail :
  head <> 0 -> chain p head (l ++ [tail]) ->
  free_node_list p <= pool_size p ->
  let new := if free_node_list p =? 0 then pool_size p + 1
             else free_node_list p in
  exists p' ndt,
    fpush_back v head p = Ret head p' /\
    node_at p tail = Some ndt /\ Node_next ndt = 0 /\
    node_at p' new = Some (mkNode v 0) /\
    (tail <> new -> node_at p' tail = Some (assign_next new ndt)) /\
    (forall j, j <> new -> j <> tail -> node_at p' j = node_at p j) /\
    pool_size p' =
      (if free_node_list p =? 0 then pool_size p + 1 else pool_size p) /\
    (tail <> new ->
     next_at p (free_node_list p) =
       (if free_node_list p =? 0 then None else Some (free_node_list p'))) /\
    (free_node_list p = 0 -> free_node_list p' = 0).
Proof.
  intros Hh Hc Hf new. subst new.
  pose proof (get_tail_chain _ _ _ _ Hc) as Ht.
  destruct (chain_last_node _ _ _ _ Hc) as (_ & ndt & Hndt & Hn0).
  pose proof (node_at_in_range _ _ _ Hndt) as Hrt.
  destruct (N.eqb_spec (free_node_list p) 0) as [E|E].
  - eexists _, ndt. split; [by eapply fpush_back_fresh|].
    do 2 (split; [done|]).
    split.
    { rewrite node_at_store_ne by lia. apply node_at_emplace_new. }
    split.
    { intros _. eapply node_at_store_eq. by apply node_at_emplace_old. }
    split.
    { intros j Hj Hjt. rewrite node_at_store_ne by (done || lia).
      by apply node_at_emplace_ne. }
    split; [by rewrite pool_size_store, pool_size_emplace|].
    split; [|done]. intros _. unfold next_at. by rewrite E.
  - set (p1 := store_node p tail (assign_next (free_node_list p) ndt)).
    destruct (node_at_is_Some p1 (free_node_list p)) as [ndf Hndf].
    { unfold p1. rewrite pool_size_store. lia. }
    eexists _, ndt. split; [by eapply fpush_back_recycle|].
    do 2 (split; [done|]).
    split.
    { eapply node_at_store_eq. rewrite node_at_free_node_list. exact Hndf. }
    split.
    { intros Hne. rewrite node_at_store_ne by done.
      rewrite node_at_free_node_list. by eapply node_at_store_eq. }
    split.
    { intros j Hj Hjt. rewrite node_at_store_ne by done.
      rewrite node_at_free_node_list. apply node_at_store_ne; [lia | done]. }
    split.
    { by rewrite pool_size_store, pool_size_free_node_list, pool_size_store. }
    split; [|done]. intros Hne. unfold next_at. simpl.
    unfold p1 in Hndf. rewrite node_at_store_ne in Hndf by (lia || done).
    by rewrite Hndf.
Qed.

Lemma free_nodes p head nd :
  node_at p head = Some nd ->
  exists p',
    free head p = Ret (Node_next nd) p' /\
    node_at p' head = Some (mkNode (Node_value nd) (free_node_list p)) /\
    free_node_list p' = head /\
    (forall j, j <> head -> node_at p' j = node_at p j) /\
    pool_size p' = pool_size p.
Proof.
  intros Hnd. pose proof (node_at_in_range _ _ _ Hnd) as Hr.
  eexists. split; [by apply free_in_range|].
  split; [by eapply (node_at_store_eq p)|].
  split; [done|].
  split; [|apply pool_size_store].
  intros j Hj. apply (node_at_store_ne p); [lia | done].
Qed.

Lemma free_list_nodes p head l tail :
  head <> 0 -> chain p head (l ++ [tail]) ->
  exists p' ndt,
    free_list head p = Ret 0 p' /\
    node_at p tail = Some ndt /\ Node_next ndt = 0 /\
    node_at p' tail = Some (mkNode (Node_value ndt) (free_node_list p)) /\
    free_node_list p' = head /\
    (forall j, j <> tail -> node_at p' j = node_at p j) /\
    pool_size p' = pool_size p.
Proof.
  intros Hh Hc.
  pose proof (get_tail_chain _ _ _ _ Hc) as Ht.
  destruct (chain_last_node _ _ _ _ Hc) as (_ & ndt & Hndt & Hn0).
  pose proof (node_at_in_range _ _ _ Hndt) as Hrt.
  assert (head <= pool_size p) as Hr.
  { destruct (chain_cons_inv _ _ _ Hc Hh) as (nd & ? & _ & Hnd & _).
    apply node_at_in_range in Hnd. lia. }
  eexists _, ndt. split; [by eapply free_list_in_range|].
  do 2 (split; [done|]).
  split; [by eapply (node_at_store_eq p)|].
  split; [done|].
  split; [|apply pool_size_store].
  intros j Hj. apply (node_at_store_ne p); [lia | done].
Qed.

(** ** What each method does to the lists *)

Lemma chain_handle_in_range p h l : chain p h l -> h <= pool_size p.
Proof.
  intros Hc. destruct (decide (h = 0)) as [->|Hh]; [lia|].
  destruct (chain_cons_inv _ _ _ Hc Hh) as (nd & _ & _ & Hnd & _).
  apply node_at_in_range in Hnd. lia.
Qed.

Lemma chain_snoc_inv p h l :
  chain p h l -> h <> 0 -> exists l0 tail, l = l0 ++ [tail].
Proof.
  intros Hc Hh. destruct (chain_cons_inv _ _ _ Hc Hh) as (_ & l' & -> & _).
  destruct (last (h :: l')) as [tail|] eqn:E.
  - apply last_Some in E as [l0 ->]. eauto.
  - by apply last_None in E.
Qed.

(** An insertion takes the head of the free chain, when there is one, and
    leaves the rest of the chain in place. *)
Lemma free_chain_pop p p' fl :
  chain p (free_node_list p) fl ->
  next_at p (free_node_list p) =
    (if free_node_list p =? 0 then None else Some (free_node_list p')) ->
  (free_node_list p = 0 -> free_node_list p' = 0) ->
  (forall j, j ∈ fl -> j <> free_node_list p -> node_at p' j = node_at p j) ->
  (fl = [] /\ free_node_list p = 0 /\ free_node_list p' = 0) \/
  (exists fl', fl = free_node_list p :: fl' /\ free_node_list p <> 0 /\
               chain p' (free_node_list p') fl').
Proof.
  intros Hc Hn H0 Hframe.
  destruct (N.eqb_spec (free_node_list p) 0) as [E|E].
  - left. rewrite E in Hc. apply chain_sentinel in Hc. auto.
  - right. pose proof (chain_NoDup _ _ _ Hc) as Hnodup.
    destruct (chain_cons_inv _ _ _ Hc E) as (nd & fl' & -> & Hnd & Hfl').
    exists fl'. do 2 (split; [done|]).
    unfold next_at in Hn. rewrite Hnd in Hn. injection Hn as <-.
    pose proof (NoDup_cons_1_1 _ _ Hnodup) as Hnotin.
    eapply lseg_ext; [|exact Hfl'].
    intros j Hj. apply Hframe; [by right|]. intros ->. done.
Qed.

Lemma fpush_front_chain p v head l fl :
  chain p head l -> chain p (free_node_list p) fl ->
  (forall i, i ∈ l -> i ∉ fl) ->
  exists new p',
    fpush_front v head p = Ret new p' /\
    chain p' new (new :: l) /\
    node_at p' new = Some (mkNode v head) /\
    (forall j, j <> new -> node_at p' j = node_at p j) /\
    ((fl = [] /\ new = pool_size p + 1 /\ pool_size p' = pool_size p + 1 /\
      free_node_list p' = 0) \/
     (exists fl', fl = new :: fl' /\ pool_size p' = pool_size p /\
                  chain p' (free_node_list p') fl')).
Proof.
  intros Hl Hfl Hdisj.
  destruct (fpush_front_nodes p v head) as
    (p' & Hrun & Hnew & Hframe & Hsize & Hn & H0).
  { by eapply chain_handle_in_range. }
  { by eapply chain_handle_in_range. }
  set (new := if free_node_list p =? 0 then pool_size p + 1
              else free_node_list p) in *.
  assert (new ∉ l) as Hnotin.
  { intros Hin. pose proof (lseg_in_range _ _ _ _ _ Hl Hin) as Hr. subst new.
    destruct (N.eqb_spec (free_node_list p) 0) as [E|E]; [lia|].
    destruct (chain_cons_inv _ _ _ Hfl E) as (_ & fl' & -> & _).
    apply (Hdisj _ Hin). by left. }
  exists new, p'. split; [done|].
  split.
  { split; [done|]. eexists. split; [exact Hnew|]. simpl.
    eapply lseg_ext; [|exact Hl]. intros j Hj. apply Hframe. by intros ->. }
  do 2 (split; [done|]).
  destruct (free_chain_pop p p' fl Hfl Hn H0) as
    [(-> & E & E')|(fl' & -> & E & Hc)].
  - intros j Hj Hne. apply Hframe. subst new.
    destruct (N.eqb_spec (free_node_list p) 0) as [E|E]; [|done].
    rewrite E in Hfl. apply chain_sentinel in Hfl. subst fl.
    by apply elem_of_nil in Hj.
  - left. subst new. rewrite E in *. simpl in *. done.
  - right. subst new.
    destruct (N.eqb_spec (free_node_list p) 0) as [?|_]; [done|]. eauto.
Qed.

Lemma fpush_back_chain p v head l0 tail fl :
  head <> 0 -> chain p head (l0 ++ [tail]) ->
  chain p (free_node_list p) fl -> tail ∉ fl ->
  exists new p',
    fpush_back v head p = Ret head p' /\
    node_at p' new = Some (mkNode v 0) /\
    next_at p' tail = Some new /\
    value_at p' tail = value_at p tail /\
    (forall j, j <> new -> j <> tail -> node_at p' j = node_at p j) /\
    (new ∉ l0 -> chain p' head (l0 ++ [tail; new])) /\
    ((fl = [] /\ new = pool_size p + 1 /\ pool_size p' = pool_size p + 1 /\
      free_node_list p' = 0) \/
     (exists fl', fl = new :: fl' /\ pool_size p' = pool_size p /\
                  chain p' (free_node_list p') fl')).
Proof.
  intros Hh Hl Hfl Htail.
  destruct (fpush_back_nodes p v head l0 tail Hh Hl) as
    (p' & ndt & Hrun & Hndt & Hn0 & Hnew & Ht & Hframe & Hsize & Hn & H0).
  { by eapply chain_handle_in_range. }
  set (new := if free_node_list p =? 0 then pool_size p + 1
              else free_node_list p) in *.
  pose proof (node_at_in_range _ _ _ Hndt) as Hrt.
  assert (tail <> new) as Hne.
  { subst new. destruct (N.eqb_spec (free_node_list p) 0) as [E|E]; [lia|].
    destruct (chain_cons_inv _ _ _ Hfl E) as (_ & fl' & -> & _).
    intros ->. apply Htail. by left. }
  specialize (Ht Hne). specialize (Hn Hne).
  exists new, p'. do 2 (split; [done|]).
  split; [unfold next_at; by rewrite Ht|].
  split; [unfold value_at; by rewrite Ht, Hndt|].
  split; [done|].
  split.
  { intros Hnotin. pose proof (chain_NoDup _ _ _ Hl) as Hnodup.
    apply NoDup_app in Hnodup as (_ & Hdisj & _).
    destruct (chain_last_node _ _ _ _ Hl) as (Hseg & _).
    change [tail; new] with ([tail] ++ [new]). rewrite app_assoc.
    apply lseg_snoc. split; [|by eauto].
    apply lseg_snoc. split; [|by eexists; split; [exact Ht|]].
    eapply lseg_ext; [|exact Hseg]. intros j Hj. apply Hframe.
    - by intros ->.
    - intros ->. apply (Hdisj _ Hj). by left. }
  destruct (free_chain_pop p p' fl Hfl Hn H0) as
    [(-> & E & E')|(fl' & -> & E & Hc)].
  - intros j Hj Hjf. apply Hframe.
    + subst new. destruct (N.eqb_spec (free_node_list p) 0) as [E|E]; [|done].
      rewrite E in Hfl. apply chain_sentinel in Hfl. subst fl.
      by apply elem_of_nil in Hj.
    + by intros ->.
  - left. subst new. rewrite E in *. simpl in *. done.
  - right. subst new.
    destruct (N.eqb_spec (free_node_list p) 0) as [?|_]; [done|]. eauto.
Qed.

Lemma free_lists p head l fl :
  head <> 0 -> chain p head l ->
  chain p (free_node_list p) fl -> head ∉ fl ->
  exists nd l' p',
    l = head :: l' /\ node_at p head = Some nd /\
    free head p = Ret (Node_next nd) p' /\
    chain p' (Node_next nd) l' /\
    chain p' (free_node_list p') (head :: fl) /\
    (forall j, j <> head -> node_at p' j = node_at p j) /\
    pool_size p' = pool_size p.
Proof.
  intros Hh Hl Hfl Hnotin.
  pose proof (chain_NoDup _ _ _ Hl) as Hnodup.
  destruct (chain_cons_inv _ _ _ Hl Hh) as (nd & l' & -> & Hnd & Hl').
  destruct (free_nodes p head nd Hnd) as
    (p' & Hrun & Hhead & Hf & Hframe & Hsize).
  exists nd, l', p'. do 3 (split; [done|]).
  apply NoDup_cons in Hnodup as [Hnotin' _].
  split.
  { eapply lseg_ext; [|exact Hl']. intros j Hj. apply Hframe. by intros ->. }
  split; [|done].
  rewrite Hf. split; [done|]. eexists. split; [exact Hhead|]. simpl.
  eapply lseg_ext; [|exact Hfl]. intros j Hj. apply Hframe. by intros ->.
Qed.

Lemma free_list_lists p head l0 tail fl :
  head <> 0 -> chain p head (l0 ++ [tail]) ->
  chain p (free_node_list p) fl -> tail ∉ fl ->
  exists p',
    free_list head p = Ret 0 p' /\
    chain p' (free_node_list p') ((l0 ++ [tail]) ++ fl) /\
    free_node_list p' = head /\
    (forall j, j <> tail -> node_at p' j = node_at p j) /\
    pool_size p' = pool_size p.
Proof.
  intros Hh Hl Hfl Hnotin.
  destruct (free_list_nodes p head l0 tail Hh Hl) as
    (p' & ndt & Hrun & Hndt & Hn0 & Ht & Hf & Hframe & Hsize).
  exists p'. split; [done|]. split; [|done].
  pose proof (chain_NoDup _ _ _ Hl) as Hnodup.
  apply NoDup_app in Hnodup as (_ & Hdisj & _).
  destruct (chain_last_node _ _ _ _ Hl) as (Hseg & _).
  rewrite Hf. apply lseg_app. exists (free_node_list p). split.
  - apply lseg_snoc. split; [|by eexists; split; [exact Ht|]].
    eapply lseg_ext; [|exact Hseg]. intros j Hj. apply Hframe.
    intros ->. apply (Hdisj _ Hj). by left.
  - eapply lseg_ext; [|exact Hfl]. intros j Hj. apply Hframe. by intros ->.
Qed.

(** ** Traversal *)

Lemma traverse_loop_chain fuel p a h l ws :
  chain p h l -> value_at p <$> l = Some <$> ws -> (length l < fuel)%nat ->
  traverse_loop fuel p (mkIter a h) (mkIter a end_) = Ret ws p.
Proof.
  revert h ws fuel. induction l as [|i l IH]; intros h ws fuel Hc Hv Hfuel;
    (destruct fuel as [|fuel]; [simpl in Hfuel; lia|]).
  - apply chain_nil in Hc as ->. destruct ws; [|done]. simpl.
    unfold Iter_ne, Iter_eq. simpl. by rewrite N.eqb_refl.
  - destruct Hc as [-> (nd & Hnd & Hl)]. destruct ws as [|w ws]; [done|].
    injection Hv as Hw Hv. unfold value_at in Hw. rewrite Hnd in Hw.
    injection Hw as <-.
    pose proof (node_at_in_range _ _ _ Hnd) as Hr.
    simpl. unfold Iter_ne, Iter_eq. simpl. rewrite N.eqb_refl.
    destruct (N.eqb_spec i end_) as [E|E]; [unfold end_ in E; lia|]. simpl.
    unfold Iter_deref, Iter_value, Iter_preincrement, Iter_update, Iter_node.
    simpl. rewrite Hnd.
    destruct (N.eqb_spec i 0) as [?|_]; [lia|]. simpl.
    rewrite (IH _ ws); [done | done | done | simpl in Hfuel; lia].
Qed.

Lemma traverse_loop_Diverges fuel p a h :
  traverse_loop (S fuel) p (mkIter a h) (mkIter a end_) = Diverges ->
  h <> 0 /\ get_tail_loop fuel p h = Diverges.
Proof.
  revert h. induction fuel as [|fuel IH]; intros h.
  - simpl. unfold Iter_ne, Iter_eq. simpl. rewrite N.eqb_refl. simpl.
    destruct (N.eqb_spec h end_) as [E|E]; simpl; [done|].
    intros _. by split.
  - remember (S fuel) as n eqn:En. simpl.
    unfold Iter_ne, Iter_eq. simpl. rewrite N.eqb_refl. simpl.
    destruct (N.eqb_spec h end_) as [E|E]; simpl; [done|].
    unfold Iter_deref, Iter_value, Iter_preincrement, Iter_update, Iter_node.
    simpl. destruct (node_at p h) as [nd|] eqn:Hnd; [|done].
    destruct (N.eqb_spec h 0) as [?|_]; [done|]. simpl.
    destruct (traverse_loop n p _ _) eqn:Hrec; try done.
    intros _. split; [done|]. subst n. apply IH in Hrec as [Hnz Hrec].
    apply is_empty_false in Hnz. simpl. by rewrite Hnd, Hnz.
Qed.

Lemma get_tail_loop_traverse fuel p a h :
  h <> 0 -> get_tail_loop fuel p h = Diverges ->
  traverse_loop fuel p (mkIter a h) (mkIter a end_) = Diverges.
Proof.
  revert h. induction fuel as [|fuel IH]; intros h Hh; simpl; [done|].
  unfold Iter_ne, Iter_eq. simpl. rewrite N.eqb_refl. simpl.
  destruct (N.eqb_spec h end_) as [E|E]; simpl; [done|].
  unfold Iter_deref, Iter_value, Iter_preincrement, Iter_update, Iter_node.
  simpl. destruct (node_at p h) as [nd|]; [|done].
  destruct (N.eqb_spec h 0) as [?|_]; [done|]. simpl.
  destruct (is_empty (Node_next nd)) eqn:E'; [done|].
  intros Hrec. apply is_empty_false in E'. by rewrite (IH _ E' Hrec).
Qed.

(** The loop of a traversal that has made more iterations than the pool has
    nodes goes round for ever. *)
Lemma traverse_loop_cycle fuel p a h :
  (S (length (pool p)) < fuel)%nat ->
  traverse_loop fuel p (mkIter a h) (mkIter a end_) = Diverges ->
  forall fuel', traverse_loop fuel' p (mkIter a h) (mkIter a end_) = Diverges.
Proof.
  intros Hfuel Hdiv fuel'. destruct fuel as [|fuel]; [lia|].
  apply traverse_loop_Diverges in Hdiv as [Hh Hdiv].
  apply get_tail_loop_traverse; [done|].
  eapply get_tail_loop_cycle; [|exact Hdiv]. lia.
Qed.

Lemma traverse_chain p h l ws :
  chain p h l -> value_at p <$> l = Some <$> ws -> traverse h p = Ret ws p.
Proof.
  intros Hc Hv. unfold traverse, begin_, end_iter.
  eapply traverse_loop_chain; [done | done |].
  apply chain_length in Hc. lia.
Qed.

Lemma value_at_fmap_ext p p' l :
  (forall j, j ∈ l -> value_at p' j = value_at p j) ->
  value_at p' <$> l = value_at p <$> l.
Proof. intros H. by apply Forall_fmap_ext_1, Forall_forall. Qed.

(** ** Successive push_back calls *)

(** One [push_back] on a list that shares no node with the free chain:
    the list gains the value at its end and still shares no node with the
    free chain. *)
Lemma push_back_step p v head l ws fl :
  chain p head l -> value_at p <$> l = Some <$> ws ->
  chain p (free_node_list p) fl -> (forall i, i ∈ l -> i ∉ fl) ->
  exists head' p' l' fl',
    push_back v head p = Ret head' p' /\
    chain p' head' l' /\ (value_at p' <$> l' = Some <$> (ws ++ [v])) /\
    chain p' (free_node_list p') fl' /\ (forall i, i ∈ l' -> i ∉ fl').
Proof.
  intros Hl Hv Hfl Hdisj. pose proof (chain_NoDup _ _ _ Hfl) as Hnodup.
  destruct (decide (head = 0)) as [->|Hh].
  - apply chain_sentinel in Hl as ->. destruct ws; [|done].
    destruct (fpush_front_chain p v 0 [] fl) as
      (new & p' & Hrun & Hc & Hnew & Hframe & Hfree); [done | done | done |].
    assert (exists fl', chain p' (free_node_list p') fl' /\ new ∉ fl')
      as (fl' & Hfl' & Hnotin).
    { destruct Hfree as [(-> & _ & _ & E)|(fl' & -> & _ & Hc')].
      - exists []. split; [by rewrite E | apply not_elem_of_nil].
      - exists fl'. split; [done | by apply NoDup_cons in Hnodup as []]. }
    exists new, p', [new], fl'. split; [done|]. split; [done|].
    split; [simpl; unfold value_at; by rewrite Hnew|]. split; [done|].
    by intros i ->%list_elem_of_singleton.
  - destruct (chain_snoc_inv _ _ _ Hl Hh) as (l0 & tail & ->).
    assert (tail ∉ fl) as Htail.
    { apply Hdisj. apply elem_of_app. right. by left. }
    destruct (fpush_back_chain p v head l0 tail fl Hh Hl Hfl Htail) as
      (new & p' & Hrun & Hnew & Hnt & Hvt & Hframe & Hc & Hfree).
    assert ((new ∉ l0 ++ [tail]) /\
            exists fl', chain p' (free_node_list p') fl' /\ (new ∉ fl') /\
                        forall i, i ∈ fl' -> i ∈ fl)
      as (Hnotin & fl' & Hfl' & Hnotin' & Hsub).
    { destruct Hfree as [(-> & -> & _ & E)|(fl' & -> & _ & Hc')].
      - split.
        + intros Hin. pose proof (lseg_in_range _ _ _ _ _ Hl Hin). lia.
        + exists []. split; [by rewrite E|]. split; [apply not_elem_of_nil|].
          done.
      - split.
        + intros Hin. apply (Hdisj _ Hin). by left.
        + exists fl'. split; [done|].
          split; [by apply NoDup_cons in Hnodup as []|].
          intros i Hi. by right. }
    assert (forall j, j ∈ l0 ++ [tail] -> value_at p' j = value_at p j)
      as Hvals.
    { intros j Hj. destruct (decide (j = tail)) as [->|Hjt]; [done|].
      unfold value_at. rewrite Hframe; [done | | done]. by intros ->. }
    exists head, p', (l0 ++ [tail; new]), fl'. split; [done|].
    split.
    { apply Hc. intros Hin. apply Hnotin. apply elem_of_app. by left. }
    split.
    { change [tail; new] with ([tail] ++ [new]). rewrite app_assoc.
      rewrite (fmap_app (value_at p')), (fmap_app Some).
      rewrite (value_at_fmap_ext p p') by exact Hvals.
      rewrite Hv. simpl. unfold value_at at 1. by rewrite Hnew. }
    split; [done|].
    intros i Hi Hi'.
    change [tail; new] with ([tail] ++ [new]) in Hi. rewrite app_assoc in Hi.
    apply elem_of_app in Hi as [Hi|Hi%list_elem_of_singleton].
    + by apply (Hdisj _ Hi), Hsub.
    + by subst i.
Qed.

Lemma push_back_all_chain vs p head l ws fl :
  chain p head l -> value_at p <$> l = Some <$> ws ->
  chain p (free_node_list p) fl -> (forall i, i ∈ l -> i ∉ fl) ->
  exists head' p' l',
    push_back_all vs head p = Ret head' p' /\
    chain p' head' l' /\ (value_at p' <$> l' = Some <$> (ws ++ vs)).
Proof.
  revert p head l ws fl. induction vs as [|v vs IH];
    intros p head l ws fl Hl Hv Hfl Hdisj.
  - exists head, p, l. by rewrite app_nil_r.
  - destruct (push_back_step p v head l ws fl Hl Hv Hfl Hdisj) as
      (head1 & p1 & l1 & fl1 & Hrun & Hl1 & Hv1 & Hfl1 & Hdisj1).
    destruct (IH p1 head1 l1 (ws ++ [v]) fl1 Hl1 Hv1 Hfl1 Hdisj1) as
      (head' & p' & l' & Hrun' & Hl' & Hv').
    exists head', p', l'. split.
    + simpl. unfold bind. by rewrite Hrun.
    + split; [done|]. by rewrite <- app_assoc in Hv'.
Qed.

(** C2 (amended). In a pool whose free chain reaches the sentinel,
    [push_back] of [v1], ..., [vn] in turn, starting from the empty list and
    each on the head the previous call returned, succeeds, and the
    traversal from the last head returned yields [v1], ..., [vn] in that
    order. *)
Theorem push_back_order p vs fl :
  chain p (free_node_list p) fl ->
  exists head p',
    push_back_all vs new_list p = Ret head p' /\
    traverse head p' = Ret vs p'.
Proof.
  intros Hfl.
  destruct (push_back_all_chain vs p new_list [] [] fl) as
    (head & p' & l & Hrun & Hl & Hv); [done | done | done | |].
  { intros i Hi. by apply elem_of_nil in Hi. }
  exists head, p'. split; [done|]. by eapply traverse_chain.
Qed.

(** ** free_list and push_back on a list *)

(** C6 (amended). [free_list] on the sentinel returns it and changes
    nothing; on a non-sentinel head beyond [size()] it throws
    [std::invalid_argument]; on a non-sentinel head whose list reaches the
    sentinel it returns the sentinel, the tail's [next] becomes the old head
    of the free chain, [free_node_list] becomes [head], and no other node
    changes; so when the old free chain reaches the sentinel without passing
    through that tail, the free chain is now the whole list followed by the
    old free chain. *)
Theorem free_list_spec p head :
  (head = 0 -> free_list head p = Ret head p) /\
  (head <> 0 -> pool_size p < head ->
   exists what, free_list head p = Throw (invalid_argument what) p) /\
  (forall l tail,
     head <> 0 -> chain p head l -> last l = Some tail ->
     exists ndt p',
       free_list head p = Ret new_list p' /\
       node_at p tail = Some ndt /\
       node_at p' tail = Some (mkNode (Node_value ndt) (free_node_list p)) /\
       free_node_list p' = head /\
       (forall j, j <> tail -> node_at p' j = node_at p j) /\
       pool_size p' = pool_size p /\
       (forall fl, chain p (free_node_list p) fl -> tail ∉ fl ->
                   chain p' (free_node_list p') (l ++ fl))).
Proof.
  split; [intros ->; apply free_list_sentinel|].
  split; [apply free_list_throws|].
  intros l tail Hh Hl [l0 ->]%last_Some.
  destruct (free_list_nodes p head l0 tail Hh Hl) as
    (p' & ndt & Hrun & Hndt & Hn0 & Ht & Hf & Hframe & Hsize).
  exists ndt, p'. do 6 (split; [done|]).
  intros fl Hfl Hnotin.
  destruct (free_list_lists p head l0 tail fl Hh Hl Hfl Hnotin) as
    (p'' & Hrun' & Hc & _).
  rewrite Hrun in Hrun'. by injection Hrun' as <-.
Qed.

(** C7 (amended). [push_back] on the sentinel is [push_front]; on a
    non-sentinel head whose list reaches the sentinel, in a pool whose
    [free_node_list] is the sentinel or in range, it returns [head], and the
    node taken for the value (new, or the head of the free chain) holds the
    value with the sentinel as [next]; unless the list's tail is that same
    free node, the tail's [next] is the node taken. *)
Theorem push_back_spec p v head :
  (head = 0 -> push_back v head p = push_front v head p) /\
  (forall l tail,
     head <> 0 -> chain p head l -> last l = Some tail ->
     free_node_list p <= pool_size p ->
     exists new p',
       push_back v head p = Ret head p' /\
       new = (if free_node_list p =? 0 then pool_size p + 1
              else free_node_list p) /\
       node_at p' new = Some (mkNode v end_) /\
       (tail <> free_node_list p -> next_at p' tail = Some new)).
Proof.
  split; [intros ->; apply fpush_back_sentinel|].
  intros l tail Hh Hl [l0 ->]%last_Some Hf.
  destruct (fpush_back_nodes p v head l0 tail Hh Hl Hf) as
    (p' & ndt & Hrun & Hndt & Hn0 & Hnew & Ht & _).
  eexists _, p'. do 3 (split; [done|]).
  intros Hne. unfold next_at. rewrite Ht; [done|].
  pose proof (node_at_in_range _ _ _ Hndt).
  destruct (N.eqb_spec (free_node_list p) 0); [lia | done].
Qed.

(** ** The size of the pool *)

Lemma grows_ret {A} (a : A) : grows (Value:=Value) (ret a).
Proof. intros p. simpl. lia. Qed.

Lemma grows_throw {A} e : grows (Value:=Value) (A:=A) (throw e).
Proof. intros p. simpl. lia. Qed.

Lemma grows_bind {A B} (m : M Value A) (k : A -> M Value B) :
  grows m -> (forall a, grows (k a)) -> grows (bind m k).
Proof.
  intros Hm Hk p. unfold bind. specialize (Hm p).
  destruct (m p) as [a p1|e p1| |]; [|done..].
  specialize (Hk a p1). destruct (k a p1); [lia | lia | done | done].
Qed.

Lemma grows_check_index1 index : grows (Value:=Value) (check_index1 index).
Proof. intros p. unfold check_index1. destruct (_ <? _); simpl; lia. Qed.

Lemma grows_check_index2 index : grows (Value:=Value) (check_index2 index).
Proof.
  unfold check_index2. destruct (is_empty index);
    [apply grows_throw | apply grows_check_index1].
Qed.

Lemma grows_node index : grows (Value:=Value) (node index).
Proof.
  intros p. unfold node. destruct (node_at p index); simpl; [lia | done].
Qed.

Lemma grows_node_assign index f : grows (Value:=Value) (node_assign index f).
Proof.
  intros p. unfold node_assign. destruct (node_at p index); [|done].
  rewrite pool_size_store. lia.
Qed.

Lemma grows_emplace_back v n : grows (emplace_back v n).
Proof. intros p. unfold emplace_back. rewrite pool_size_emplace. lia. Qed.

Lemma grows_size : grows (Value:=Value) size.
Proof. intros p. simpl. lia. Qed.

Lemma grows_get_free_node_list : grows (Value:=Value) get_free_node_list.
Proof. intros p. simpl. lia. Qed.

Lemma grows_set_free_node_list i : grows (Value:=Value) (set_free_node_list i).
Proof. intros p. simpl. rewrite pool_size_free_node_list. lia. Qed.

Lemma grows_get_tail index : grows (Value:=Value) (get_tail index).
Proof.
  intros p. destruct (get_tail index p) as [tail p'|e p'| |] eqn:E;
    [|by apply get_tail_never_throws in E|done..].
  apply get_tail_Ret in E as [-> _]. lia.
Qed.

Create HintDb grows discriminated.
#[local] Hint Resolve grows_ret grows_throw grows_check_index1
  grows_check_index2 grows_node grows_node_assign grows_emplace_back
  grows_size grows_get_free_node_list grows_set_free_node_list
  grows_get_tail : grows.

Ltac grows_steps :=
  repeat first
    [ progress auto with grows
    | apply grows_bind; [|intros ?]
    | match goal with |- grows (if ?b then _ else _) => destruct b end ].

Lemma grows_value index : grows (Value:=Value) (value index).
Proof. unfold value. grows_steps. Qed.

Lemma grows_next index : grows (Value:=Value) (next index).
Proof. unfold next. grows_steps. Qed.

Lemma grows_set_value index v : grows (set_value index v).
Proof. unfold set_value. grows_steps. Qed.

Lemma grows_set_next index n : grows (Value:=Value) (set_next index n).
Proof. unfold set_next. grows_steps. Qed.

Lemma grows_fpush_front v head : grows (fpush_front v head).
Proof. unfold fpush_front. grows_steps. Qed.

Lemma grows_fpush_back v head : grows (fpush_back v head).
Proof.
  unfold fpush_back. destruct (is_empty head); [apply grows_fpush_front|].
  pose proof grows_set_next. grows_steps.
Qed.

Lemma grows_free head : grows (Value:=Value) (free head).
Proof. unfold free. grows_steps. Qed.

Lemma grows_free_list head : grows (Value:=Value) (free_list head).
Proof. unfold free_list. grows_steps. Qed.

Lemma grows_exec c : grows (exec c).
Proof.
  pose proof grows_value. pose proof grows_next. pose proof grows_set_value.
  pose proof grows_set_next. pose proof grows_fpush_front.
  pose proof grows_fpush_back. pose proof grows_free.
  pose proof grows_free_list.
  destruct c; unfold exec, reserve, deref_assign, push_front, push_back;
    grows_steps.
Qed.

Lemma run_size cs p p' : run cs p = Some p' -> pool_size p <= pool_size p'.
Proof.
  revert p. induction cs as [|c cs IH]; intros p; simpl.
  - intros [= <-]. lia.
  - pose proof (grows_exec c p) as Hc.
    destruct (exec c p) as [r p1|e p1| |]; simpl; [| |done..].
    + intros H%IH. lia.
    + intros H%IH. lia.
Qed.

Lemma fpush_front_Ret_inv p v head h p' :
  fpush_front v head p = Ret h p' -> head <= pool_size p.
Proof.
  unfold fpush_front, bind, check_index1.
  destruct (N.ltb_spec (pool_size p) head); [done | lia].
Qed.

Lemma get_tail_loop_Ret_chain fuel p h tail p' :
  get_tail_loop fuel p h = Ret tail p' -> exists l0, chain p h (l0 ++ [tail]).
Proof.
  revert h. induction fuel as [|fuel IH]; intros h; simpl; [done|].
  destruct (node_at p h) as [nd|] eqn:Hnd; [|done].
  destruct (is_empty (Node_next nd)) eqn:E.
  - intros [= <- <-]. apply is_empty_true in E. exists []. simpl.
    split; [done|]. by exists nd.
  - intros (l0 & Hl0)%IH. exists (h :: l0). simpl. split; [done|]. eauto.
Qed.

Lemma fpush_back_Ret_inv p v head h p' :
  fpush_back v head p = Ret h p' -> head <> 0 ->
  exists l0 tail, get_tail head p = Ret tail p /\ chain p head (l0 ++ [tail]).
Proof.
  intros Hrun Hh. unfold fpush_back in Hrun. apply is_empty_false in Hh.
  rewrite Hh in Hrun. unfold bind at 1 in Hrun.
  destruct (get_tail head p) as [tail p1|e p1| |] eqn:Ht; [|done..].
  pose proof (get_tail_Ret _ _ _ _ Ht) as [-> _].
  destruct (get_tail_loop_Ret_chain _ _ _ _ _ Ht) as [l0 Hl0]. eauto.
Qed.

Lemma fpush_front_Ret_free p v head new p' :
  fpush_front v head p = Ret new p' -> free_node_list p <= pool_size p.
Proof.
  intros Hrun. pose proof (fpush_front_Ret_inv _ _ _ _ _ Hrun) as Hh.
  destruct (decide (free_node_list p = 0)) as [E|E]; [lia|].
  destruct (node_at p (free_node_list p)) as [nd|] eqn:Hnd.
  { apply node_at_in_range in Hnd. lia. }
  unfold fpush_front, bind in Hrun. rewrite check_index1_ok in Hrun by done.
  unfold get_free_node_list in Hrun. apply is_empty_false in E.
  rewrite E in Hrun. unfold node in Hrun. by rewrite Hnd in Hrun.
Qed.

Lemma fpush_back_Ret_free p v head h p' :
  fpush_back v head p = Ret h p' -> free_node_list p <= pool_size p.
Proof.
  intros Hrun. destruct (decide (head = 0)) as [->|Hh].
  { rewrite fpush_back_sentinel in Hrun. by eapply fpush_front_Ret_free. }
  destruct (decide (free_node_list p <= pool_size p)) as [|Hf]; [done|].
  exfalso.
  destruct (fpush_back_Ret_inv _ _ _ _ _ Hrun Hh) as (l0 & tail & Ht & Hl).
  destruct (chain_last_node _ _ _ _ Hl) as (_ & ndt & Hndt & _).
  unfold fpush_back in Hrun. apply is_empty_false in Hh. rewrite Hh in Hrun.
  unfold bind at 1 in Hrun. rewrite Ht in Hrun.
  unfold bind, get_free_node_list in Hrun.
  destruct (is_empty (free_node_list p)) eqn:E.
  { apply is_empty_true in E. lia. }
  rewrite (set_next_eq _ _ _ _ Hndt) in Hrun. unfold node in Hrun.
  rewrite node_at_None in Hrun; [done|]. right. rewrite pool_size_store. lia.
Qed.

(** A push that returns with a free node to take does not grow the pool,
    whatever the state of the lists and of the free chain. *)
Lemma push_recycle_size p v head h p' :
  fpush_front v head p = Ret h p' \/ fpush_back v head p = Ret h p' ->
  free_node_list p <> 0 -> pool_size p' = pool_size p.
Proof.
  intros Hrun Hf.
  assert (forall head h p', fpush_front v head p = Ret h p' ->
                            pool_size p' = pool_size p) as Hfront.
  { intros head1 h1 p1 Hrun1.
    destruct (fpush_front_nodes p v head1) as
      (p2 & Hrun2 & _ & _ & Hsize & _).
    { by eapply fpush_front_Ret_inv. }
    { by eapply fpush_front_Ret_free. }
    rewrite Hrun1 in Hrun2. injection Hrun2 as _ <-.
    by destruct (N.eqb_spec (free_node_list p) 0). }
  destruct Hrun as [Hrun|Hrun]; [by eapply Hfront|].
  destruct (decide (head = 0)) as [->|Hh].
  { rewrite fpush_back_sentinel in Hrun. by eapply Hfront. }
  destruct (fpush_back_Ret_inv _ _ _ _ _ Hrun Hh) as (l0 & tail & _ & Hl).
  destruct (fpush_back_nodes p v head l0 tail Hh Hl) as
    (p1 & _ & Hrun1 & _ & _ & _ & _ & _ & Hsize & _).
  { by eapply fpush_back_Ret_free. }
  rewrite Hrun in Hrun1. injection Hrun1 as _ <-.
  by destruct (N.eqb_spec (free_node_list p) 0).
Qed.

Lemma fpush_front_pops p v head h p' fl :
  fpush_front v head p = Ret h p' ->
  free_node_list p <> 0 -> chain p (free_node_list p) fl ->
  pool_size p' = pool_size p /\
  exists fl', fl = free_node_list p :: fl' /\ chain p' (free_node_list p') fl'.
Proof.
  intros Hrun Hf Hfl.
  destruct (fpush_front_nodes p v head) as
    (p1 & Hrun1 & Hnew & Hframe & Hsize & Hn & H0).
  { by eapply fpush_front_Ret_inv. }
  { by eapply chain_handle_in_range. }
  rewrite Hrun in Hrun1. injection Hrun1 as -> <-.
  assert (forall j, j ∈ fl -> j <> free_node_list p ->
                    node_at p' j = node_at p j) as Hframe'.
  { intros j _ Hj. apply Hframe.
    by destruct (N.eqb_spec (free_node_list p) 0). }
  destruct (free_chain_pop p p' fl Hfl Hn H0 Hframe') as
    [(_ & E & _)|(fl' & -> & _ & Hc)]; [done|].
  destruct (N.eqb_spec (free_node_list p) 0) as [?|_]; [done|]. eauto.
Qed.

(** C5 (amended). Whatever calls are made, [size()] never decreases.  A
    [push_front] or [push_back] that returns, made when the free chain is
    empty, increases [size()] by exactly one; made when [free_node_list] is
    not the sentinel, it leaves [size()] as it was, in every pool.  When
    moreover the free chain reaches the sentinel, a [push_front] that
    returns takes the first node off the free chain and leaves the rest of
    it, and so does a [push_back] that returns, provided the last node of
    the list it extends is not a node of the free chain. *)
Theorem size_conservation :
  (forall cs p p', run cs p = Some p' -> pool_size p <= pool_size p') /\
  (forall p v head h p',
     push_front v head p = Ret h p' \/ push_back v head p = Ret h p' ->
     free_node_list p = 0 -> pool_size p' = pool_size p + 1) /\
  (forall p v head h p',
     push_front v head p = Ret h p' \/ push_back v head p = Ret h p' ->
     free_node_list p <> 0 -> pool_size p' = pool_size p) /\
  (forall p v head h p' fl,
     push_front v head p = Ret h p' ->
     free_node_list p <> 0 -> chain p (free_node_list p) fl ->
     exists fl', fl = free_node_list p :: fl' /\
                 chain p' (free_node_list p') fl') /\
  (forall p v head h p' fl,
     push_back v head p = Ret h p' ->
     free_node_list p <> 0 -> chain p (free_node_list p) fl ->
     (forall tail, get_tail head p = Ret tail p -> tail ∉ fl) ->
     exists fl', fl = free_node_list p :: fl' /\
                 chain p' (free_node_list p') fl').
Proof.
  split; [apply run_size|].
  split.
  { intros p v head h p' Hrun Hf.
    assert (forall h p', fpush_front v head p = Ret h p' ->
                         pool_size p' = pool_size p + 1) as Hfront.
    { intros h1 p1 Hrun1.
      rewrite fpush_front_fresh in Hrun1
        by (done || by eapply fpush_front_Ret_inv).
      injection Hrun1 as _ <-. apply pool_size_emplace. }
    destruct Hrun as [Hrun|Hrun]; [by eapply Hfront|].
    unfold push_back in Hrun.
    destruct (decide (head = 0)) as [->|Hh]; [by eapply Hfront|].
    destruct (fpush_back_Ret_inv _ _ _ _ _ Hrun Hh) as (l0 & tail & _ & Hl).
    destruct (fpush_back_nodes p v head l0 tail Hh Hl) as
      (p1 & _ & Hrun1 & _ & _ & _ & _ & _ & Hsize & _); [lia|].
    rewrite Hrun in Hrun1. injection Hrun1 as _ <-. by rewrite Hf in Hsize. }
  split; [intros p v head h p'; apply push_recycle_size|].
  split.
  { intros p v head h p' fl Hrun Hf Hfl.
    by destruct (fpush_front_pops p v head h p' fl Hrun Hf Hfl). }
  intros p v head h p' fl Hrun Hf Hfl Htail. unfold push_back in Hrun.
  destruct (decide (head = 0)) as [->|Hh].
  { rewrite fpush_back_sentinel in Hrun.
    by destruct (fpush_front_pops p v 0 h p' fl Hrun Hf Hfl). }
  destruct (fpush_back_Ret_inv _ _ _ _ _ Hrun Hh) as (l0 & tail & Ht & Hl).
  destruct (fpush_back_chain p v head l0 tail fl Hh Hl Hfl (Htail _ Ht)) as
    (new & p1 & Hrun1 & _ & _ & _ & _ & _ & Hfree).
  rewrite Hrun in Hrun1. injection Hrun1 as _ <-.
  destruct Hfree as [(-> & _)|(fl' & -> & Hsize & Hc)].
  - destruct (chain_cons_inv _ _ _ Hfl Hf) as (_ & ? & ? & _). done.
  - exists fl'. split; [|done]. by destruct Hfl as [-> _].
Qed.

(** ** The lists of a client and the free chain *)

Lemma elem_of_handles n i : i ∈ handles n <-> 1 <= i <= N.of_nat n.
Proof.
  unfold handles. rewrite list_elem_of_fmap. split.
  - intros (k & -> & Hk%elem_of_seq). lia.
  - intros Hi. exists (N.to_nat i). split; [lia|]. apply elem_of_seq. lia.
Qed.

Lemma NoDup_handles n : NoDup (handles n).
Proof. apply NoDup_fmap_2; [apply _ | apply NoDup_seq]. Qed.

Lemma handles_S n : handles (S n) = handles n ++ [N.of_nat n + 1].
Proof.
  unfold handles. rewrite seq_S, fmap_app. simpl. do 2 f_equal. lia.
Qed.

Lemma handles_same_size p p' :
  pool_size p' = pool_size p ->
  handles (length (pool p')) = handles (length (pool p)).
Proof. unfold pool_size. intros H. f_equal. lia. Qed.

Lemma handles_one_more p p' :
  pool_size p' = pool_size p + 1 ->
  handles (length (pool p')) = handles (length (pool p)) ++ [pool_size p + 1].
Proof.
  unfold pool_size. intros H.
  replace (length (pool p')) with (S (length (pool p))) by lia.
  apply handles_S.
Qed.

Lemma filter_all {A} (P : A -> Prop) `{!forall x, Decision (P x)} (l : list A) :
  Forall P l -> filter P l = l.
Proof.
  induction 1 as [|x l Hx Hl IH]; [done|].
  rewrite filter_cons_True by done. by rewrite IH.
Qed.

Lemma chains_head_elem p hs ls h :
  Forall2 (chain p) hs ls -> Forall (fun h => h <> 0) hs ->
  h ∈ hs -> h ∈ concat ls.
Proof.
  induction 1 as [|h0 l0 hs ls Hc Hcs IH]; intros Hnz Hin.
  - by apply elem_of_nil in Hin.
  - apply Forall_cons in Hnz as [Hnz0 Hnz]. simpl. apply elem_of_app.
    apply elem_of_cons in Hin as [->|Hin]; [left | right; by apply IH].
    destruct (chain_cons_inv _ _ _ Hc Hnz0) as (_ & l' & -> & _). by left.
Qed.

Lemma chains_ext p p' hs ls :
  Forall2 (chain p) hs ls ->
  (forall j, j ∈ concat ls -> next_at p' j = next_at p j) ->
  Forall2 (chain p') hs ls.
Proof.
  induction 1 as [|h0 l0 hs ls Hc Hcs IH]; intros Hext; [constructor|].
  simpl in Hext. constructor.
  - eapply lseg_ext_next; [|exact Hc]. intros j Hj. apply Hext.
    apply elem_of_app. by left.
  - apply IH. intros j Hj. apply Hext. apply elem_of_app. by right.
Qed.

(** The list a call works on, apart from the lists it leaves alone. *)
Lemma select_list p hs ls h :
  Forall2 (chain p) hs ls -> Forall (fun h => h <> 0) hs ->
  NoDup (concat ls) -> h = 0 \/ h ∈ hs ->
  exists l rest,
    chain p h l /\
    Forall2 (chain p) (filter (fun k => k <> h) hs) rest /\
    concat ls ≡ₚ l ++ concat rest.
Proof.
  intros Hcs Hnz Hnodup [->|Hin].
  { exists [], ls. split; [done|]. by rewrite filter_all. }
  revert Hnz Hnodup Hin.
  induction Hcs as [|h0 l0 hs ls Hc Hcs IH]; intros Hnz Hnodup Hin.
  - by apply elem_of_nil in Hin.
  - apply Forall_cons in Hnz as [Hnz0 Hnz]. simpl in Hnodup.
    apply NoDup_app in Hnodup as (Hnd0 & Hdisj & Hnd).
    destruct (decide (h0 = h)) as [->|Hne].
    + exists l0, ls. split; [done|].
      rewrite filter_cons_False by (intros H; by apply H).
      split; [|done]. rewrite filter_all; [done|].
      apply Forall_forall. intros k Hk ->.
      destruct (chain_cons_inv _ _ _ Hc Hnz0) as (_ & l' & -> & _).
      apply (Hdisj h); [by left|]. by eapply chains_head_elem.
    + apply elem_of_cons in Hin as [->|Hin]; [done|].
      destruct (IH Hnz Hnd Hin) as (l & rest & Hl & Hrest & Hperm).
      exists l, (l0 :: rest). split; [done|].
      rewrite filter_cons_True by done. split; [by constructor|].
      simpl. rewrite Hperm. by rewrite !app_assoc, (Permutation_app_comm l0 l).
Qed.

(** Putting the client back together after the call. *)
Lemma well_formed_rebuild p p' rest_hs rest got l' fl' :
  Forall2 (chain p) rest_hs rest -> Forall (fun h => h <> 0) rest_hs ->
  (forall j, j ∈ concat rest -> next_at p' j = next_at p j) ->
  chain p' got l' -> chain p' (free_node_list p') fl' ->
  l' ++ concat rest ++ fl' ≡ₚ handles (length (pool p')) ->
  well_formed {| store := p';
                 lists := (if got =? 0 then [] else [got]) ++ rest_hs |}.
Proof.
  intros Hrest Hnz Hframe Hl' Hfl' Hperm.
  pose proof (chains_ext _ p' _ _ Hrest Hframe) as Hrest'.
  destruct (N.eqb_spec got 0) as [->|Hgot].
  - apply chain_sentinel in Hl' as ->. exists rest, fl'. simpl. done.
  - exists (l' :: rest), fl'. simpl. split; [by constructor|].
    split; [by constructor|]. split; [done|]. by rewrite <- app_assoc.
Qed.

Lemma well_formed_partitioned st : well_formed st -> partitioned st.
Proof.
  intros (ls & fl & Hcs & Hnz & Hfl & Hperm) i Hi.
  assert (NoDup (concat ls ++ fl)) as Hnodup.
  { rewrite Hperm. apply NoDup_handles. }
  assert (i ∈ concat ls ++ fl) as Hin.
  { rewrite Hperm. by apply elem_of_handles. }
  assert (in_a_list st i <-> i ∈ concat ls) as Hlist.
  { unfold in_a_list. clear -Hcs. split.
    - intros (h & Hh & Hr). induction Hcs as [|h0 l0 hs ls Hc Hcs IH].
      + by apply elem_of_nil in Hh.
      + simpl. apply elem_of_app.
        apply elem_of_cons in Hh as [->|Hh]; [left | right; by apply IH].
        by apply (reachable_chain _ _ _ _ Hc).
    - intros Hin. induction Hcs as [|h0 l0 hs ls Hc Hcs IH].
      + by apply elem_of_nil in Hin.
      + simpl in Hin. apply elem_of_app in Hin as [Hin|Hin].
        * exists h0. split; [by left|]. by apply (reachable_chain _ _ _ _ Hc).
        * destruct (IH Hin) as (h & Hh & Hr). exists h.
          split; [by right | done]. }
  assert (in_free_chain st i <-> i ∈ fl) as Hfree.
  { unfold in_free_chain. by apply reachable_chain. }
  rewrite Hlist, Hfree. apply NoDup_app in Hnodup as (_ & Hdisj & _).
  apply elem_of_app in Hin. split; [done|]. intros [H1 H2]. by eapply Hdisj.
Qed.

(** What [well_formed] gives for a call on head [h]. *)
Lemma well_formed_select st h :
  well_formed st -> h = 0 \/ h ∈ lists st ->
  exists l rest fl,
    chain (store st) h l /\
    chain (store st) (free_node_list (store st)) fl /\
    Forall2 (chain (store st)) (filter (fun k => k <> h) (lists st)) rest /\
    Forall (fun k => k <> 0) (filter (fun k => k <> h) (lists st)) /\
    l ++ concat rest ++ fl ≡ₚ handles (length (pool (store st))) /\
    (forall j, j ∈ l -> j ∉ fl) /\
    (forall j, j ∈ concat rest ->
               (j ∉ l) /\ (j ∉ fl) /\ j <> pool_size (store st) + 1).
Proof.
  intros (ls & fl & Hcs & Hnz & Hfl & Hperm) Hh.
  assert (NoDup (concat ls ++ fl)) as Hnodup.
  { rewrite Hperm. apply NoDup_handles. }
  pose proof Hnodup as (Hnd & _ & _)%NoDup_app.
  destruct (select_list _ _ _ _ Hcs Hnz Hnd Hh) as (l & rest & Hl & Hrest & Hp).
  assert (l ++ concat rest ++ fl ≡ₚ handles (length (pool (store st))))
    as Hperm'.
  { rewrite <- Hperm, Hp. by rewrite app_assoc. }
  assert (NoDup (l ++ concat rest ++ fl)) as Hnodup'.
  { rewrite Hperm'. apply NoDup_handles. }
  exists l, rest, fl. do 3 (split; [done|]).
  split.
  { apply Forall_forall. intros k [_ Hk]%list_elem_of_filter.
    by eapply Forall_forall in Hnz. }
  split; [done|].
  apply NoDup_app in Hnodup' as (_ & Hdisj & (_ & Hdisj' & _)%NoDup_app).
  split.
  { intros j Hj Hj'. apply (Hdisj j Hj). apply elem_of_app. by right. }
  intros j Hj. split.
  { intros Hj'. apply (Hdisj j Hj'). apply elem_of_app. by left. }
  split; [by apply Hdisj'|].
  assert (j ∈ handles (length (pool (store st)))) as Hr.
  { rewrite <- Hperm'. rewrite !elem_of_app. auto. }
  apply elem_of_handles in Hr. unfold pool_size. lia.
Qed.

Lemma well_formed_push_front st v head :
  well_formed st -> head = 0 \/ head ∈ lists st ->
  exists new p',
    fpush_front v head (store st) = Ret new p' /\
    well_formed {| store := p'; lists := hand_over head new (lists st) |}.
Proof.
  intros Hwf Hh.
  destruct (well_formed_select st head Hwf Hh) as
    (l & rest & fl & Hl & Hfl & Hrest & Hnz & Hperm & Hdisj & Hrestd).
  destruct (fpush_front_chain (store st) v head l fl Hl Hfl Hdisj) as
    (new & p' & Hrun & Hc & Hnew & Hframe & Hfree).
  exists new, p'. split; [done|]. unfold hand_over.
  destruct Hfree as [(-> & Enew & Hsize & Hf)|(fl' & -> & Hsize & Hfl')].
  - eapply (well_formed_rebuild (store st) p' _ rest new (new :: l) []);
      [done | done | | done | by rewrite Hf |].
    + intros j Hj. unfold next_at. rewrite Hframe; [done|].
      destruct (Hrestd j Hj) as (_ & _ & ?). by rewrite Enew.
    + rewrite (handles_one_more _ _ Hsize), <- Hperm, Enew. solve_Permutation.
  - eapply (well_formed_rebuild (store st) p' _ rest new (new :: l) fl');
      [done | done | | done | done |].
    + intros j Hj. unfold next_at. rewrite Hframe; [done|].
      destruct (Hrestd j Hj) as (_ & Hj' & _). intros ->. apply Hj'. by left.
    + rewrite (handles_same_size _ _ Hsize), <- Hperm. solve_Permutation.
Qed.

Lemma well_formed_push_back st v head :
  well_formed st -> head = 0 \/ head ∈ lists st ->
  exists got p',
    fpush_back v head (store st) = Ret got p' /\
    well_formed {| store := p'; lists := hand_over head got (lists st) |}.
Proof.
  intros Hwf Hh. destruct (decide (head = 0)) as [->|Hne].
  { rewrite fpush_back_sentinel. by apply well_formed_push_front. }
  destruct (well_formed_select st head Hwf Hh) as
    (l & rest & fl & Hl & Hfl & Hrest & Hnz & Hperm & Hdisj & Hrestd).
  destruct (chain_snoc_inv _ _ _ Hl Hne) as (l0 & tail & ->).
  assert (tail ∈ l0 ++ [tail]) as Htin by (apply elem_of_app; right; by left).
  destruct (fpush_back_chain (store st) v head l0 tail fl Hne Hl Hfl
              (Hdisj _ Htin)) as
    (new & p' & Hrun & Hnew & Hnt & Hvt & Hframe & Hc & Hfree).
  exists head, p'. split; [done|]. unfold hand_over.
  destruct Hfree as [(-> & Enew & Hsize & Hf)|(fl' & -> & Hsize & Hfl')].
  - eapply (well_formed_rebuild (store st) p' _ rest head
              (l0 ++ [tail; new]) []); [done | done | | | by rewrite Hf |].
    + intros j Hj. destruct (Hrestd j Hj) as (Hjl & _ & ?). unfold next_at.
      rewrite Hframe; [done | by rewrite Enew | by intros ->].
    + apply Hc. intros Hin.
      assert (new ∈ l0 ++ [tail]) as Hin' by (apply elem_of_app; by left).
      pose proof (lseg_in_range _ _ _ _ _ Hl Hin'). lia.
    + rewrite (handles_one_more _ _ Hsize), <- Hperm, Enew. solve_Permutation.
  - eapply (well_formed_rebuild (store st) p' _ rest head
              (l0 ++ [tail; new]) fl'); [done | done | | | done |].
    + intros j Hj. destruct (Hrestd j Hj) as (Hjl & Hjf & _). unfold next_at.
      rewrite Hframe; [done | | by intros ->].
      intros ->. apply Hjf. by left.
    + apply Hc. intros Hin. apply (Hdisj new); [|by left].
      apply elem_of_app. by left.
    + rewrite (handles_same_size _ _ Hsize), <- Hperm. solve_Permutation.
Qed.

Lemma well_formed_free st head :
  well_formed st -> head = 0 \/ head ∈ lists st ->
  exists got p',
    free head (store st) = Ret got p' /\
    well_formed {| store := p'; lists := hand_over head got (lists st) |}.
Proof.
  intros Hwf Hh.
  destruct (well_formed_select st head Hwf Hh) as
    (l & rest & fl & Hl & Hfl & Hrest & Hnz & Hperm & Hdisj & Hrestd).
  unfold hand_over. destruct (decide (head = 0)) as [->|Hne].
  { exists 0, (store st). split; [apply free_sentinel|].
    apply chain_sentinel in Hl as ->.
    by eapply (well_formed_rebuild (store st) (store st) _ rest 0 [] fl). }
  destruct (chain_cons_inv _ _ _ Hl Hne) as (_ & l1 & -> & _).
  destruct (free_lists (store st) head (head :: l1) fl Hne Hl Hfl) as
    (nd & l' & p' & [= <-] & Hnd & Hrun & Hl' & Hfl' & Hframe & Hsize).
  { apply Hdisj. by left. }
  exists (Node_next nd), p'. split; [done|].
  eapply (well_formed_rebuild (store st) p' _ rest (Node_next nd) l1
            (head :: fl)); [done | done | | done | done |].
  - intros j Hj. destruct (Hrestd j Hj) as (Hjl & _ & _). unfold next_at.
    rewrite Hframe; [done|]. intros ->. apply Hjl. by left.
  - rewrite (handles_same_size _ _ Hsize), <- Hperm. solve_Permutation.
Qed.

Lemma well_formed_free_list st head :
  well_formed st -> head = 0 \/ head ∈ lists st ->
  exists got p',
    free_list head (store st) = Ret got p' /\
    well_formed {| store := p'; lists := hand_over head got (lists st) |}.
Proof.
  intros Hwf Hh.
  destruct (well_formed_select st head Hwf Hh) as
    (l & rest & fl & Hl & Hfl & Hrest & Hnz & Hperm & Hdisj & Hrestd).
  unfold hand_over. destruct (decide (head = 0)) as [->|Hne].
  { exists 0, (store st). split; [apply free_list_sentinel|].
    apply chain_sentinel in Hl as ->.
    by eapply (well_formed_rebuild (store st) (store st) _ rest 0 [] fl). }
  destruct (chain_snoc_inv _ _ _ Hl Hne) as (l0 & tail & ->).
  assert (tail ∈ l0 ++ [tail]) as Htin by (apply elem_of_app; right; by left).
  destruct (free_list_lists (store st) head l0 tail fl Hne Hl Hfl
              (Hdisj _ Htin)) as (p' & Hrun & Hfl' & Hf & Hframe & Hsize).
  exists 0, p'. split; [done|].
  eapply (well_formed_rebuild (store st) p' _ rest 0 []
            ((l0 ++ [tail]) ++ fl)); [done | done | | done | done |].
  - intros j Hj. destruct (Hrestd j Hj) as (Hjl & _ & _). unfold next_at.
    rewrite Hframe; [done|]. by intros ->.
  - rewrite (handles_same_size _ _ Hsize), <- Hperm. solve_Permutation.
Qed.

(** Writing a value changes no list. *)
Lemma well_formed_assign_value st index v nd :
  well_formed st -> node_at (store st) index = Some nd ->
  well_formed {| store := store_node (store st) index (assign_value v nd);
                 lists := lists st |}.
Proof.
  intros (ls & fl & Hcs & Hnz & Hfl & Hperm) Hnd.
  assert (forall j, next_at (store_node (store st) index (assign_value v nd)) j
                    = next_at (store st) j) as Hnext.
  { intros j. unfold next_at. destruct (decide (j = index)) as [->|Hj].
    - erewrite node_at_store_eq by exact Hnd. by rewrite Hnd.
    - rewrite node_at_store_ne; [done | | done].
      apply node_at_in_range in Hnd. lia. }
  exists ls, fl. simpl. split; [by eapply chains_ext|]. split; [done|].
  split; [eapply lseg_ext_next; [|exact Hfl]; intros; apply Hnext|].
  unfold store_node. simpl. by rewrite length_insert.
Qed.



Lemma value_next_reject_sentinel_or_beyond p h :
  h = 0 \/ pool_size p < h ->
  (exists what, value h p = Throw (invalid_argument what) p) /\
  (exists what, next h p = Throw (invalid_argument what) p).
Proof.
  intros Hh. destruct (check_index2_throws p h Hh) as [what Hc].
  unfold value, next, bind. rewrite Hc. eauto.
Qed.

Lemma well_formed_fresh : well_formed (Value:=Value) fresh_client.
Proof. exists [], []. simpl. done. Qed.

Lemma value_pool_after p index p' :
  pool_after (value index p) = Some p' -> p' = p.
Proof.
  destruct (decide (1 <= index <= pool_size p)) as [Hr|Hr].
  - destruct (node_at_is_Some p index Hr) as [nd Hnd].
    rewrite (value_eq _ _ _ Hnd). by intros [= <-].
  - destruct (value_next_reject_sentinel_or_beyond p index) as [[? ->] _];
      [lia|]. by intros [= <-].
Qed.

Lemma next_pool_after p index p' :
  pool_after (next index p) = Some p' -> p' = p.
Proof.
  destruct (decide (1 <= index <= pool_size p)) as [Hr|Hr].
  - destruct (node_at_is_Some p index Hr) as [nd Hnd].
    rewrite (next_eq _ _ _ Hnd). by intros [= <-].
  - destruct (value_next_reject_sentinel_or_beyond p index) as [_ [? ->]];
      [lia|]. by intros [= <-].
Qed.

Lemma set_value_pool_after p index v p' :
  pool_after (set_value index v p) = Some p' ->
  p' = p \/
  exists nd, node_at p index = Some nd /\
             p' = store_node p index (assign_value v nd).
Proof.
  destruct (decide (1 <= index <= pool_size p)) as [Hr|Hr].
  - destruct (node_at_is_Some p index Hr) as [nd Hnd].
    rewrite (set_value_eq _ _ _ _ Hnd). intros [= <-]. eauto.
  - destruct (check_index2_throws p index) as [what Hc]; [lia|].
    unfold set_value, bind. rewrite Hc. intros [= <-]. by left.
Qed.

(** A call that respects the lists keeps the invariant. *)
Lemma well_formed_step st c st' :
  well_formed st -> owned c st -> client_exec c st = Some st' ->
  well_formed st'.
Proof.
  intros Hwf Hown. destruct st as [p hs]. unfold client_exec.
  destruct c as [n|index|index v|index|index n|index v|v head|v head|head|head];
    simpl in *.
  - intros [= <-]. done.
  - unfold bind. pose proof (value_pool_after p index) as Hp.
    destruct (value index p) as [r p1|e p1| |]; simpl in *;
      intros [= <-]; by rewrite (Hp p1).
  - unfold bind. pose proof (set_value_pool_after p index v) as Hp.
    destruct (set_value index v p) as [r p1|e p1| |]; simpl in *;
      intros [= <-];
      (destruct (Hp p1 eq_refl) as [->|(nd & Hnd & ->)];
       [done | by apply (well_formed_assign_value (mkClient p hs))]).
  - unfold bind. pose proof (next_pool_after p index) as Hp.
    destruct (next index p) as [r p1|e p1| |]; simpl in *;
      intros [= <-]; by rewrite (Hp p1).
  - done.
  - unfold bind, deref_assign, node_assign.
    destruct (node_at p index) as [nd|] eqn:Hnd; simpl; [|done].
    intros [= <-]. by apply (well_formed_assign_value (mkClient p hs)).
  - destruct (well_formed_push_front _ v head Hwf Hown) as
      (new & p' & Hrun & Hwf').
    unfold bind, push_front. simpl in Hrun. rewrite Hrun. simpl.
    by intros [= <-].
  - destruct (well_formed_push_back _ v head Hwf Hown) as
      (new & p' & Hrun & Hwf').
    unfold bind, push_back. simpl in Hrun. rewrite Hrun. simpl.
    by intros [= <-].
  - destruct (well_formed_free _ head Hwf Hown) as (new & p' & Hrun & Hwf').
    unfold bind. simpl in Hrun. rewrite Hrun. simpl. by intros [= <-].
  - destruct (well_formed_free_list _ head Hwf Hown) as
      (new & p' & Hrun & Hwf').
    unfold bind. simpl in Hrun. rewrite Hrun. simpl. by intros [= <-].
Qed.

Lemma owned_state_well_formed st : owned_state st -> well_formed st.
Proof.
  induction 1 as [|st c st' _ IH Hown Hexec];
    [apply well_formed_fresh | by eapply well_formed_step].
Qed.

(** C9 (amended). In every state that a client reaches from a fresh pool
    with calls whose head argument is the sentinel or the head of a list it
    holds, and without assigning to [next], each handle in [1, size()] is a
    node of a list the client holds or a node of the free chain, and never
    both. *)
Theorem owned_nodes_partitioned st : owned_state st -> partitioned st.
Proof. intros H. by apply well_formed_partitioned, owned_state_well_formed. Qed.

(** ** Handle validation *)

(** C1. [push_back] does not validate a non-sentinel head: where
    [push_front] throws [std::invalid_argument] and leaves the pool as it
    was, [push_back] on a head beyond [size()] goes straight to [get_tail],
    whose first node access is outside the vector. *)
Theorem push_back_head_beyond_size_unchecked p v head :
  head <> 0 -> pool_size p < head ->
  push_back v head p = Undefined /\
  exists what, push_front v head p = Throw (invalid_argument what) p.
Proof.
  intros Hh Hs. split; [|by apply fpush_front_throws].
  unfold push_back, fpush_back. apply is_empty_false in Hh. rewrite Hh.
  unfold bind, get_tail. rewrite get_tail_loop_out_of_range; [done|].
  apply node_at_None. by right.
Qed.

(** C3. [value] and [next], read and written, throw
    [std::invalid_argument] on the sentinel and on every handle beyond
    [size()], and the pool is as it was. *)
Theorem value_next_reject_sentinel_and_beyond_size p h v n :
  h = 0 \/ pool_size p < h ->
  (exists what, value h p = Throw (invalid_argument what) p) /\
  (exists what, next h p = Throw (invalid_argument what) p) /\
  (exists what, set_value h v p = Throw (invalid_argument what) p) /\
  (exists what, set_next h n p = Throw (invalid_argument what) p).
Proof.
  intros Hh. destruct (check_index2_throws p h Hh) as [what Hc].
  unfold value, next, set_value, set_next, bind. rewrite Hc. eauto 8.
Qed.

(** C10. On every handle in [1, size()] [value] and [next], read and
    written, succeed, whatever the node is used for: the pool is not asked
    whether the node is on the free chain. *)
Theorem value_next_accept_every_handle_in_range p h v n :
  1 <= h <= pool_size p ->
  exists nd,
    node_at p h = Some nd /\
    value h p = Ret (Node_value nd) p /\
    next h p = Ret (Node_next nd) p /\
    set_value h v p = Ret tt (store_node p h (assign_value v nd)) /\
    set_next h n p = Ret tt (store_node p h (assign_next n nd)).
Proof.
  intros Hh. destruct (node_at_is_Some p h Hh) as [nd Hnd]. exists nd.
  split; [done|]. split; [by apply value_eq|]. split; [by apply next_eq|].
  split; [by apply set_value_eq | by apply set_next_eq].
Qed.

(** ** free *)

(** C4. [free] on the sentinel returns it and changes nothing; on a
    non-sentinel head beyond [size()] it throws [std::invalid_argument]; on
    a head in [1, size()] it returns the node's old [next], makes the node
    the head of the free chain with the old free-chain head as its [next],
    keeps its value, and touches no other node. *)
Theorem free_spec p head :
  (head = 0 -> free head p = Ret head p) /\
  (head <> 0 -> pool_size p < head ->
   exists what, free head p = Throw (invalid_argument what) p) /\
  (1 <= head <= pool_size p ->
   exists nd p',
     node_at p head = Some nd /\
     free head p = Ret (Node_next nd) p' /\
     node_at p' head = Some (mkNode (Node_value nd) (free_node_list p)) /\
     free_node_list p' = head /\
     (forall j, j <> head -> node_at p' j = node_at p j) /\
     pool_size p' = pool_size p).
Proof.
  split; [intros ->; apply free_sentinel|].
  split; [apply free_throws|].
  intros Hh. destruct (node_at_is_Some p head Hh) as [nd Hnd].
  destruct (free_nodes p head nd Hnd) as (p' & H). exists nd, p'. tauto.
Qed.

(** ** The iterator at the end of a list *)

(** C8. An iterator whose current handle is the sentinel is left as it is
    by both forms of [++], and no node is dereferenced: the list of reads
    is empty, whatever the pool holds. *)
Theorem Iter_increment_at_end_is_noop p self :
  current self = end_ ->
  Iter_preincrement self p = Some (self, []) /\
  Iter_postincrement self p = Some ((self, self), []).
Proof.
  intros Hc. unfold Iter_preincrement, Iter_postincrement, Iter_update.
  rewrite Hc. done.
Qed.

End ListPoolFacts.

(** * Further properties of the methods *)

Section ListPoolMore.
Context {Value : Type}.
Implicit Types (p q : list_pool Value) (nd : Node Value) (v : Value).
Implicit Types (index head tail h i j : N) (l fl : list N).
Implicit Types (c : call Value) (cs : list (call Value)).
Implicit Types (st : client Value) (hs : list N) (ls : list (list N)).

(** ** push_front *)

(** X1. A [push_front] that returns gives a handle that reads back the
    value pushed and the head passed in; the handle is [size() + 1] when the
    free chain was empty and the head of the free chain otherwise, and no
    other node of the pool has changed. *)
Theorem push_front_reads_back p v head new p' :
  push_front v head p = Ret new p' ->
  new = (if free_node_list p =? 0 then pool_size p + 1
         else free_node_list p) /\
  value new p' = Ret v p' /\
  next new p' = Ret head p' /\
  (forall j, j <> new -> node_at p' j = node_at p j).
Proof.
  intros Hrun. unfold push_front in Hrun.
  destruct (fpush_front_nodes p v head) as (p1 & Hrun1 & Hnew & Hframe & _).
  { by eapply fpush_front_Ret_inv. }
  { by eapply fpush_front_Ret_free. }
  rewrite Hrun in Hrun1. injection Hrun1 as -> <-.
  split; [done|]. split; [by rewrite (value_eq _ _ _ Hnew)|].
  split; [by rewrite (next_eq _ _ _ Hnew) | done].
Qed.

Lemma fpush_front_list p v head l ws :
  chain p head l -> value_at p <$> l = Some <$> ws ->
  free_node_list p <= pool_size p -> free_node_list p ∉ l ->
  exists new p',
    fpush_front v head p = Ret new p' /\
    chain p' new (new :: l) /\
    (value_at p' <$> new :: l = Some <$> v :: ws).
Proof.
  intros Hl Hv Hf Hnotin.
  destruct (fpush_front_nodes p v head) as
    (p' & Hrun & Hnew & Hframe & _); [by eapply chain_handle_in_range|done|].
  set (new := if free_node_list p =? 0 then pool_size p + 1
              else free_node_list p) in *.
  assert (new ∉ l) as Hnew_notin.
  { subst new. destruct (N.eqb_spec (free_node_list p) 0); [|done].
    intros Hin. pose proof (lseg_in_range _ _ _ _ _ Hl Hin). lia. }
  assert (forall j, j ∈ l -> node_at p' j = node_at p j) as Hsame.
  { intros j Hj. apply Hframe. by intros ->. }
  exists new, p'. split; [done|]. split.
  - split; [done|]. eexists. split; [exact Hnew|]. simpl.
    by eapply lseg_ext; [|exact Hl].
  - rewrite !fmap_cons. unfold value_at at 1. rewrite Hnew. simpl. f_equal.
    rewrite <- Hv. apply value_at_fmap_ext. intros j Hj. unfold value_at.
    by rewrite Hsame.
Qed.

(** X2. [push_front] on a list that reaches the sentinel, when the head of
    the free chain is the sentinel or a node in range that is not a node of
    the list, returns a head from which the traversal yields the value
    pushed followed by the former contents of the list. *)
Theorem push_front_conses p v head l ws :
  chain p head l -> value_at p <$> l = Some <$> ws ->
  free_node_list p <= pool_size p -> free_node_list p ∉ l ->
  exists new p',
    push_front v head p = Ret new p' /\
    traverse new p' = Ret (v :: ws) p'.
Proof.
  intros Hl Hv Hf Hnotin.
  destruct (fpush_front_list p v head l ws Hl Hv Hf Hnotin) as
    (new & p' & Hrun & Hc & Hv').
  exists new, p'. split; [done|]. by eapply traverse_chain.
Qed.

Lemma push_front_step p v head l ws fl :
  chain p head l -> value_at p <$> l = Some <$> ws ->
  chain p (free_node_list p) fl -> (forall i, i ∈ l -> i ∉ fl) ->
  exists head' p' l' fl',
    push_front v head p = Ret head' p' /\
    chain p' head' l' /\ (value_at p' <$> l' = Some <$> v :: ws) /\
    chain p' (free_node_list p') fl' /\ (forall i, i ∈ l' -> i ∉ fl').
Proof.
  intros Hl Hv Hfl Hdisj. pose proof (chain_NoDup _ _ _ Hfl) as Hnodup.
  destruct (fpush_front_chain p v head l fl Hl Hfl Hdisj) as
    (new & p' & Hrun & Hc & Hnew & Hframe & Hfree).
  assert (new ∉ l) as Hnew_notin.
  { intros Hin. pose proof (lseg_in_range _ _ _ _ _ Hl Hin) as Hr.
    destruct Hfree as [(_ & -> & _)|(fl' & -> & _)]; [lia|].
    apply (Hdisj _ Hin). by left. }
  assert (exists fl', chain p' (free_node_list p') fl' /\ (new ∉ fl') /\
                      forall i, i ∈ fl' -> i ∈ fl)
    as (fl' & Hfl' & Hn & Hsub).
  { destruct Hfree as [(-> & _ & _ & E)|(fl' & -> & _ & Hc')].
    - exists []. split; [by rewrite E|]. split; [apply not_elem_of_nil|done].
    - exists fl'. split; [done|].
      split; [by apply NoDup_cons in Hnodup as []|]. intros i Hi. by right. }
  exists new, p', (new :: l), fl'. do 2 (split; [done|]).
  split.
  { rewrite !fmap_cons. unfold value_at at 1. rewrite Hnew. simpl. f_equal.
    rewrite <- Hv. apply value_at_fmap_ext. intros j Hj. unfold value_at.
    rewrite Hframe; [done|]. by intros ->. }
  split; [done|].
  intros i [->|Hi]%elem_of_cons; [done|]. intros Hi'.
  by apply (Hdisj _ Hi), Hsub.
Qed.

Lemma push_front_all_chain vs p head l ws fl :
  chain p head l -> value_at p <$> l = Some <$> ws ->
  chain p (free_node_list p) fl -> (forall i, i ∈ l -> i ∉ fl) ->
  exists head' p' l',
    push_front_all vs head p = Ret head' p' /\
    chain p' head' l' /\ (value_at p' <$> l' = Some <$> (rev vs ++ ws)).
Proof.
  revert p head l ws fl. induction vs as [|v vs IH];
    intros p head l ws fl Hl Hv Hfl Hdisj.
  - by exists head, p, l.
  - destruct (push_front_step p v head l ws fl Hl Hv Hfl Hdisj) as
      (head1 & p1 & l1 & fl1 & Hrun & Hl1 & Hv1 & Hfl1 & Hdisj1).
    destruct (IH p1 head1 l1 (v :: ws) fl1 Hl1 Hv1 Hfl1 Hdisj1) as
      (head' & p' & l' & Hrun' & Hl' & Hv').
    exists head', p', l'. split.
    + simpl. unfold bind. by rewrite Hrun.
    + split; [done|]. simpl. by rewrite <- app_assoc.
Qed.

(** X3. In a pool whose free chain reaches the sentinel, [push_front] of
    [v1], ..., [vn] in turn, starting from the empty list and each on the
    head the previous call returned, succeeds, and the traversal from the
    last head returned yields [vn], ..., [v1]. *)
Theorem push_front_order p vs fl :
  chain p (free_node_list p) fl ->
  exists head p',
    push_front_all vs new_list p = Ret head p' /\
    traverse head p' = Ret (rev vs) p'.
Proof.
  intros Hfl.
  destruct (push_front_all_chain vs p new_list [] [] fl) as
    (head & p' & l & Hrun & Hl & Hv); [done | done | done | |].
  { intros i Hi. by apply elem_of_nil in Hi. }
  exists head, p'. split; [done|]. rewrite app_nil_r in Hv.
  by eapply traverse_chain.
Qed.

(** X4. [push_back] on a list that reaches the sentinel and shares no node
    with the free chain, the free chain reaching the sentinel too, returns a
    head from which the traversal yields the former contents of the list
    followed by the value pushed. *)
Theorem push_back_snocs p v head l ws fl :
  chain p head l -> value_at p <$> l = Some <$> ws ->
  chain p (free_node_list p) fl -> (forall i, i ∈ l -> i ∉ fl) ->
  exists head' p',
    push_back v head p = Ret head' p' /\
    (head <> 0 -> head' = head) /\
    traverse head' p' = Ret (ws ++ [v]) p'.
Proof.
  intros Hl Hv Hfl Hdisj.
  destruct (push_back_step p v head l ws fl Hl Hv Hfl Hdisj) as
    (head' & p' & l' & fl' & Hrun & Hl' & Hv' & _).
  exists head', p'. split; [done|]. split; [|by eapply traverse_chain].
  intros Hh. destruct (chain_snoc_inv _ _ _ Hl Hh) as (l0 & tail & ->).
  destruct (fpush_back_nodes p v head l0 tail Hh Hl) as (p1 & _ & Hrun1 & _).
  { by eapply chain_handle_in_range. }
  unfold push_back in Hrun. rewrite Hrun in Hrun1. by injection Hrun1.
Qed.

(** ** free *)

(** X5. [free] on the head of a list that reaches the sentinel returns a
    head from which the traversal yields the former contents without the
    first value; the head returned is the sentinel exactly when the list had
    one node.  Nothing is asked of the free chain. *)
Theorem free_drops_first p head l w ws :
  chain p head l -> value_at p <$> l = Some <$> w :: ws ->
  exists h' p',
    free head p = Ret h' p' /\
    traverse h' p' = Ret ws p' /\
    (h' = 0 <-> ws = []).
Proof.
  intros Hl Hv. pose proof (chain_NoDup _ _ _ Hl) as Hnodup.
  destruct l as [|i l']; [done|]. injection Hv as Hw Hv.
  destruct Hl as [-> (nd & Hnd & Hl')].
  destruct (free_nodes p i nd Hnd) as (p' & Hrun & _ & _ & Hframe & _).
  apply NoDup_cons in Hnodup as [Hnotin _].
  assert (forall j, j ∈ l' -> node_at p' j = node_at p j) as Hsame.
  { intros j Hj. apply Hframe. by intros ->. }
  assert (chain p' (Node_next nd) l') as Hc.
  { by eapply lseg_ext; [|exact Hl']. }
  exists (Node_next nd), p'. split; [done|]. split.
  - eapply traverse_chain; [exact Hc|]. etrans; [|exact Hv].
    apply value_at_fmap_ext. intros j Hj. unfold value_at. by rewrite Hsame.
  - split.
    + intros E. rewrite E in Hc. apply chain_sentinel in Hc as ->.
      by destruct ws.
    + intros ->. destruct l'; [by apply chain_nil in Hc | done].
Qed.

(** X6. [free] undoes [push_front]: freeing the head that a [push_front]
    has just returned gives back the head that was passed in, and every
    node but the one pushed is as it was before the [push_front]. *)
Theorem free_undoes_push_front p v head new p1 :
  push_front v head p = Ret new p1 ->
  exists p2,
    free new p1 = Ret head p2 /\
    free_node_list p2 = new /\
    pool_size p2 = pool_size p1 /\
    (forall j, j <> new -> node_at p2 j = node_at p j).
Proof.
  intros Hrun. unfold push_front in Hrun.
  destruct (fpush_front_nodes p v head) as (p' & Hrun1 & Hnew & Hframe & _).
  { by eapply fpush_front_Ret_inv. }
  { by eapply fpush_front_Ret_free. }
  rewrite Hrun in Hrun1. injection Hrun1 as -> <-.
  destruct (free_nodes p1 _ _ Hnew) as (p2 & Hfree & _ & Hf & Hframe2 & Hsize).
  exists p2. do 3 (split; [done|]).
  intros j Hj. rewrite Hframe2 by done. by apply Hframe.
Qed.

(** X7. The node freed last is the node used next: after [free(head)] on a
    head in range, a [push_front] of any value on any head in range returns
    [head] itself, does not grow the pool, and leaves [free_node_list] as it
    was before the [free]. *)
Theorem free_then_push_front_reuses p head v h2 :
  1 <= head <= pool_size p -> h2 <= pool_size p ->
  exists nx p1 p2,
    free head p = Ret nx p1 /\
    push_front v h2 p1 = Ret head p2 /\
    pool_size p2 = pool_size p /\
    free_node_list p2 = free_node_list p /\
    node_at p2 head = Some (mkNode v h2) /\
    (forall j, j <> head -> node_at p2 j = node_at p j).
Proof.
  intros Hh Hh2. destruct (node_at_is_Some p head Hh) as [nd Hnd].
  destruct (free_nodes p head nd Hnd) as
    (p1 & Hfree & Hhead & Hf & Hframe & Hsize).
  assert (node_at p1 (free_node_list p1) =
          Some (mkNode (Node_value nd) (free_node_list p))) as Hnd1
    by (by rewrite Hf).
  pose proof (fpush_front_recycle p1 v h2 _ ltac:(lia) Hnd1) as Hpush.
  rewrite Hf in Hpush. simpl in Hpush.
  eexists _, p1, _. split; [done|]. split; [exact Hpush|].
  split; [by rewrite pool_size_store, pool_size_free_node_list|].
  split; [done|].
  split.
  { eapply node_at_store_eq. rewrite node_at_free_node_list. by rewrite <- Hf. }
  intros j Hj. rewrite node_at_store_ne by (done || lia).
  rewrite node_at_free_node_list. by apply Hframe.
Qed.

(** ** free_list *)

Lemma free_list_segment p head l :
  head <> 0 -> chain p head l ->
  exists p',
    free_list head p = Ret 0 p' /\
    lseg p' head l (free_node_list p) /\
    free_node_list p' = head /\
    pool_size p' = pool_size p /\
    (forall j, j ∉ l -> node_at p' j = node_at p j).
Proof.
  intros Hh Hl. destruct (chain_snoc_inv _ _ _ Hl Hh) as (l0 & tail & ->).
  destruct (free_list_nodes p head l0 tail Hh Hl) as
    (p' & ndt & Hrun & Hndt & Hn0 & Ht & Hf & Hframe & Hsize).
  exists p'. split; [done|].
  pose proof (chain_NoDup _ _ _ Hl) as Hnodup.
  apply NoDup_app in Hnodup as (_ & Hdisj & _).
  destruct (chain_last_node _ _ _ _ Hl) as (Hseg & _).
  split.
  { apply lseg_snoc. split; [|by eexists; split; [exact Ht|]].
    eapply lseg_ext; [|exact Hseg]. intros j Hj. apply Hframe.
    intros ->. apply (Hdisj _ Hj). by left. }
  do 2 (split; [done|]).
  intros j Hj. apply Hframe. intros ->. apply Hj. apply elem_of_app.
  right. by left.
Qed.

(** Pushing at the front while the free chain starts with the nodes
    [rest]: the nodes are taken in order. *)
Lemma push_front_all_recycles vs p cur lc wsc rest t :
  NoDup rest -> lseg p (free_node_list p) rest t ->
  chain p cur lc -> value_at p <$> lc = Some <$> wsc ->
  (forall i, i ∈ lc -> i ∉ rest) -> length vs = length rest ->
  exists h p',
    push_front_all vs cur p = Ret h p' /\
    pool_size p' = pool_size p /\
    free_node_list p' = t /\
    h = default cur (last rest) /\
    traverse h p' = Ret (rev vs ++ wsc) p'.
Proof.
  revert p cur lc wsc rest. induction vs as [|v vs IH];
    intros p cur lc wsc rest Hnodup Hrest Hlc Hv Hdisj Hlen.
  - destruct rest; [|done]. simpl in Hrest. exists cur, p.
    do 3 (split; [done|]). split; [done|]. by eapply traverse_chain.
  - destruct rest as [|r rest]; [done|]. injection Hlen as Hlen.
    destruct Hrest as [Hr (nd & Hnd & Hrest)].
    apply NoDup_cons in Hnodup as [Hr_notin Hnodup].
    assert (r ∉ lc) as Hr_lc.
    { intros Hin. apply (Hdisj _ Hin). by left. }
    pose proof (chain_handle_in_range _ _ _ Hlc) as Hcur.
    rewrite <- Hr in Hnd.
    pose proof (fpush_front_recycle p v cur nd Hcur Hnd) as Hpush.
    rewrite Hr in Hpush, Hnd.
    set (p1 := store_node {| pool := pool p; free_node_list := Node_next nd |}
                          r (mkNode v cur)) in *.
    assert (node_at p1 r = Some (mkNode v cur)) as Hnew.
    { eapply node_at_store_eq. rewrite node_at_free_node_list. exact Hnd. }
    assert (forall j, j <> r -> node_at p1 j = node_at p j) as Hframe.
    { intros j Hj. unfold p1. rewrite node_at_store_ne; [done | | done].
      apply node_at_in_range in Hnd. lia. }
    destruct (IH p1 r (r :: lc) (v :: wsc) rest) as
      (h & p' & Hrun & Hsize & Hf & Hh & Htr).
    + done.
    + eapply lseg_ext; [|exact Hrest]. intros j Hj. apply Hframe.
      by intros ->.
    + split; [done|]. eexists. split; [exact Hnew|]. simpl.
      eapply lseg_ext; [|exact Hlc]. intros j Hj. apply Hframe.
      by intros ->.
    + rewrite !fmap_cons. unfold value_at at 1. rewrite Hnew. simpl. f_equal.
      rewrite <- Hv. apply value_at_fmap_ext. intros j Hj. unfold value_at.
      rewrite Hframe; [done|]. by intros ->.
    + intros i [->|Hi]%elem_of_cons; [done|]. intros Hi'.
      apply (Hdisj _ Hi). by right.
    + done.
    + exists h, p'. split.
      { simpl. unfold bind, push_front. by rewrite Hpush. }
      split.
      { rewrite Hsize. unfold p1.
        by rewrite pool_size_store, pool_size_free_node_list. }
      split; [done|]. split.
      { rewrite Hh. rewrite last_cons. by destruct (last rest). }
      simpl. by rewrite <- app_assoc.
Qed.

(** X8. The nodes of a list released by [free_list] are the next ones
    used: after [free_list(head)] on a list of [n] nodes that reaches the
    sentinel, [n] successive [push_front] calls from the empty list succeed
    without growing the pool, the last one returns the old tail, the
    traversal from it yields the values in the reverse order of pushing, and
    [free_node_list] is back to what it was before the [free_list].
    Nothing is asked of the free chain. *)
Theorem free_list_then_push_front_all_reuses p head l vs :
  head <> 0 -> chain p head l -> length vs = length l ->
  exists p1 h p2,
    free_list head p = Ret new_list p1 /\
    push_front_all vs new_list p1 = Ret h p2 /\
    pool_size p2 = pool_size p /\
    free_node_list p2 = free_node_list p /\
    last l = Some h /\
    traverse h p2 = Ret (rev vs) p2.
Proof.
  intros Hh Hl Hlen.
  destruct (free_list_segment p head l Hh Hl) as
    (p1 & Hrun & Hseg & Hf & Hsize & _).
  rewrite <- Hf in Hseg.
  destruct (push_front_all_recycles vs p1 0 [] [] l (free_node_list p)) as
    (h & p2 & Hpush & Hsize2 & Hf2 & Hlast & Htr);
    [by eapply chain_NoDup | done | done | done | | done |].
  { intros i Hi. by apply elem_of_nil in Hi. }
  exists p1, h, p2. do 2 (split; [done|]). split; [lia|]. split; [done|].
  split.
  - destruct (chain_snoc_inv _ _ _ Hl Hh) as (l0 & tail & ->).
    rewrite last_snoc in Hlast |- *. by rewrite Hlast.
  - by rewrite app_nil_r in Htr.
Qed.

(** ** get_tail *)

(** X9. [get_tail] returns exactly on the lists that reach the sentinel
    through nodes of the vector, and what it returns is their last node; it
    leaves the pool as it is and never throws. *)
Theorem get_tail_returns_last p head :
  (forall tail p',
     get_tail head p = Ret tail p' <->
     p' = p /\ exists l0, chain p head (l0 ++ [tail])) /\
  (forall e p', get_tail head p <> Throw e p').
Proof.
  split; [|apply get_tail_never_throws].
  intros tail p'. split.
  - intros Hrun. destruct (get_tail_Ret _ _ _ _ Hrun) as [-> _].
    split; [done|]. by eapply get_tail_loop_Ret_chain.
  - intros [-> [l0 Hl]]. by eapply get_tail_chain.
Qed.

(** ** Assignments through value and next *)

Lemma check_index2_Ret p h u p' :
  check_index2 h p = Ret u p' -> 1 <= h <= pool_size p.
Proof.
  intros Hrun. destruct (decide (1 <= h <= pool_size p)) as [|Hr]; [done|].
  destruct (check_index2_throws p h) as [what Hc]; [lia|]. congruence.
Qed.

Lemma set_value_Ret p h v u p' :
  set_value h v p = Ret u p' -> 1 <= h <= pool_size p.
Proof.
  unfold set_value, bind. destruct (check_index2 h p) eqn:E; [|done..].
  intros _. by eapply check_index2_Ret.
Qed.

Lemma set_next_Ret p h n u p' :
  set_next h n p = Ret u p' -> 1 <= h <= pool_size p.
Proof.
  unfold set_next, bind. destruct (check_index2 h p) eqn:E; [|done..].
  intros _. by eapply check_index2_Ret.
Qed.

(** X10. What is assigned through [value(h)] or [next(h)] is what is read
    back, and the assignment changes nothing else: not the other field of
    the node, not another node, not [free_node_list], not the size. *)
Theorem assign_then_read p h v n :
  (forall p',
     set_value h v p = Ret tt p' ->
     value h p' = Ret v p' /\ next_at p' h = next_at p h /\
     (forall j, j <> h -> node_at p' j = node_at p j) /\
     free_node_list p' = free_node_list p /\ pool_size p' = pool_size p) /\
  (forall p',
     set_next h n p = Ret tt p' ->
     next h p' = Ret n p' /\ value_at p' h = value_at p h /\
     (forall j, j <> h -> node_at p' j = node_at p j) /\
     free_node_list p' = free_node_list p /\ pool_size p' = pool_size p).
Proof.
  split; intros p' Hrun.
  - pose proof (set_value_Ret _ _ _ _ _ Hrun) as Hr.
    destruct (node_at_is_Some p h Hr) as [nd Hnd].
    rewrite (set_value_eq _ _ _ _ Hnd) in Hrun. injection Hrun as <-.
    pose proof (node_at_store_eq p h nd (assign_value v nd) Hnd) as Hnew.
    split; [by rewrite (value_eq _ _ _ Hnew)|].
    split; [unfold next_at; by rewrite Hnew, Hnd|].
    split; [intros j Hj; apply node_at_store_ne; [lia | done]|].
    split; [done | apply pool_size_store].
  - pose proof (set_next_Ret _ _ _ _ _ Hrun) as Hr.
    destruct (node_at_is_Some p h Hr) as [nd Hnd].
    rewrite (set_next_eq _ _ _ _ Hnd) in Hrun. injection Hrun as <-.
    pose proof (node_at_store_eq p h nd (assign_next n nd) Hnd) as Hnew.
    split; [by rewrite (next_eq _ _ _ Hnew)|].
    split; [unfold value_at; by rewrite Hnew, Hnd|].
    split; [intros j Hj; apply node_at_store_ne; [lia | done]|].
    split; [done | apply pool_size_store].
Qed.

(** ** Exceptions *)












(** ** The iterator *)

(** X12. On a handle in [1, size()] the iterator reads what the checked
    accessors read: [operator *] the value that [value] returns, [++] the
    handle that [next] returns, each with one node access.  Where [value]
    and [next] throw, on the sentinel and beyond [size()], dereferencing
    the iterator is an access outside the vector, and so is advancing it
    beyond [size()]. *)
Theorem Iter_reads_what_accessors_read p a h :
  (1 <= h <= pool_size p ->
   exists nd,
     node_at p h = Some nd /\
     Iter_deref (begin_ a h) p = Some (Node_value nd, [h]) /\
     value h p = Ret (Node_value nd) p /\
     Iter_preincrement (begin_ a h) p
       = Some (begin_ a (Node_next nd), [h]) /\
     next h p = Ret (Node_next nd) p) /\
  (h = 0 \/ pool_size p < h -> Iter_deref (begin_ a h) p = None) /\
  (pool_size p < h -> Iter_preincrement (begin_ a h) p = None).
Proof.
  split; [|split].
  - intros Hr. destruct (node_at_is_Some p h Hr) as [nd Hnd]. exists nd.
    split; [done|].
    unfold Iter_deref, Iter_value, Iter_preincrement, Iter_update, Iter_node.
    simpl. rewrite Hnd. destruct (N.eqb_spec h 0) as [?|_]; [lia|].
    split; [done|]. split; [by apply value_eq|]. split; [done|].
    by apply next_eq.
  - intros Hr. unfold Iter_deref, Iter_value, Iter_node. simpl.
    by rewrite node_at_None.
  - intros Hr. unfold Iter_preincrement, Iter_update, Iter_node. simpl.
    rewrite node_at_None by (by right).
    destruct (N.eqb_spec h 0) as [?|_]; [lia | done].
Qed.

(** X13. [operator ==] holds exactly between iterators of the same pool at
    the same handle, so it is an equivalence and iterators of two pools are
    never equal, whatever their handles; [operator !=] is its negation; and
    [begin(h)] equals [end(h')] of the same pool exactly when [h] is the
    empty list, whatever [h'] is. *)
Theorem Iter_eq_equivalence (x y z : Iter) (a h h' : N) :
  (Iter_eq x y = true <-> x = y) /\
  Iter_eq x x = true /\
  Iter_eq x y = Iter_eq y x /\
  (Iter_eq x y = true -> Iter_eq y z = true -> Iter_eq x z = true) /\
  (Iter_pool x <> Iter_pool y -> Iter_eq x y = false) /\
  Iter_ne x y = negb (Iter_eq x y) /\
  Iter_eq (begin_ a h) (end_iter a h') = is_empty h.
Proof.
  assert (forall u w : Iter, Iter_eq u w = true <-> u = w) as Hiff.
  { intros [ua uh] [wa wh]. unfold Iter_eq. simpl.
    rewrite andb_true_iff, !N.eqb_eq. split.
    - by intros [-> ->].
    - by intros [= -> ->]. }
  split; [apply Hiff|].
  split; [by apply Hiff|].
  split.
  { unfold Iter_eq.
    by rewrite (N.eqb_sym (Iter_pool x)), (N.eqb_sym (current x)). }
  split.
  { intros ->%Hiff ->%Hiff. by apply Hiff. }
  split.
  { intros Hne. unfold Iter_eq. apply N.eqb_neq in Hne. by rewrite Hne. }
  split; [done|].
  unfold Iter_eq, begin_, end_iter, is_empty, end_. simpl.
  by rewrite N.eqb_refl, (N.eqb_sym h 0).
Qed.

(** ** Callers that respect the lists *)

Lemma chains_lookup p hs ls h :
  Forall2 (chain p) hs ls -> h ∈ hs ->
  exists l, chain p h l /\ forall j, j ∈ l -> j ∈ concat ls.
Proof.
  induction 1 as [|h0 l0 hs ls Hc Hcs IH]; intros Hin.
  - by apply elem_of_nil in Hin.
  - apply elem_of_cons in Hin as [->|Hin].
    + exists l0. split; [done|]. intros j Hj. simpl. apply elem_of_app.
      by left.
    + destruct (IH Hin) as (l & Hl & Hsub). exists l. split; [done|].
      intros j Hj. simpl. apply elem_of_app. right. by apply Hsub.
Qed.

Lemma lseg_values p h l t :
  lseg p h l t -> exists ws, value_at p <$> l = Some <$> ws.
Proof.
  revert h. induction l as [|i l IH]; intros h; [by exists []|].
  intros [-> (nd & Hnd & (ws & Hws)%IH)]. exists (Node_value nd :: ws).
  rewrite !fmap_cons. unfold value_at at 1. rewrite Hnd. simpl. by f_equal.
Qed.

Lemma well_formed_list_call_returns st c head :
  well_formed st -> owned c st -> call_head c = Some head ->
  exists got p', exec c (store st) = Ret (reply_index got) p'.
Proof.
  intros Hwf Hown Hc.
  destruct c as [| | | | | |v h|v h|h|h]; try done; simpl in Hown |- *.
  - destruct (well_formed_push_front st v h Hwf Hown) as (g & p' & Hrun & _).
    exists g, p'. unfold bind, push_front. by rewrite Hrun.
  - destruct (well_formed_push_back st v h Hwf Hown) as (g & p' & Hrun & _).
    exists g, p'. unfold bind, push_back. by rewrite Hrun.
  - destruct (well_formed_free st h Hwf Hown) as (g & p' & Hrun & _).
    exists g, p'. unfold bind. by rewrite Hrun.
  - destruct (well_formed_free_list st h Hwf Hown) as (g & p' & Hrun & _).
    exists g, p'. unfold bind. by rewrite Hrun.
Qed.

(** X14. For a caller that respects the lists, the pool's own failures
    do not occur in [push_front], [push_back], [free] and [free_list]: the
    range checks do not throw their [std::invalid_argument], no node access
    is outside the vector, and the walk to the tail ends.  (What
    [emplace_back] or the assignment of a [Value] may throw is not part of
    the model, here and in the states the caller has come through; this
    says nothing about it.) *)
Theorem owned_list_calls_return st c head :
  owned_state st -> owned c st -> call_head c = Some head ->
  (forall what p', exec c (store st) <> Throw (invalid_argument what) p') /\
  exec c (store st) <> Undefined /\
  exec c (store st) <> Diverges.
Proof.
  intros Hwf%owned_state_well_formed Hown Hc.
  destruct (well_formed_list_call_returns st c head Hwf Hown Hc) as
    (got & p' & ->).
  by repeat split.
Qed.

(** X15. For a caller that respects the lists, the traversal of every list
    it holds ends, stays inside the vector and yields at least one value. *)
Theorem owned_lists_traverse st h :
  owned_state st -> h ∈ lists st ->
  exists ws, ws <> [] /\ traverse h (store st) = Ret ws (store st).
Proof.
  intros (ls & fl & Hcs & Hnz & _)%owned_state_well_formed Hin.
  destruct (chains_lookup _ _ _ _ Hcs Hin) as (l & Hl & _).
  destruct (lseg_values _ _ _ _ Hl) as (ws & Hws).
  exists ws. split; [|by eapply traverse_chain].
  intros ->. destruct l; [|done]. apply chain_nil in Hl.
  eapply Forall_forall in Hnz; [|exact Hin]. done.
Qed.

Lemma bind_ret_Ret {A B} (m : M Value A) (f : A -> B) p r p' :
  bind m (fun a => ret (f a)) p = Ret r p' ->
  exists a, m p = Ret a p' /\ r = f a.
Proof.
  unfold bind. destruct (m p) as [a p1|e1 p1| |]; [|done..].
  intros [= <- <-]. by exists a.
Qed.

Lemma list_call_frame p c head l fl r p' :
  call_head c = Some head -> chain p head l ->
  chain p (free_node_list p) fl -> exec c p = Ret r p' ->
  forall j, j ∉ l -> j ∉ fl -> j <> pool_size p + 1 ->
            node_at p' j = node_at p j.
Proof.
  intros Hc Hl Hfl Hrun j Hjl Hjf Hjs.
  pose proof (chain_handle_in_range _ _ _ Hl) as Hh.
  pose proof (chain_handle_in_range _ _ _ Hfl) as Hf.
  assert (j <> (if free_node_list p =? 0 then pool_size p + 1
                else free_node_list p)) as Hnew.
  { destruct (N.eqb_spec (free_node_list p) 0) as [E|E]; [done|].
    destruct (chain_cons_inv _ _ _ Hfl E) as (_ & fl' & -> & _).
    intros ->. apply Hjf. by left. }
  destruct c as [| | | | | |v h|v h|h|h]; try done;
    injection Hc as ->; simpl in Hrun;
    apply bind_ret_Ret in Hrun as (g & Hrun & _).
  - destruct (fpush_front_nodes p v head Hh Hf) as (p1 & Hrun1 & _ & Hfr & _).
    unfold push_front in Hrun. rewrite Hrun in Hrun1.
    injection Hrun1 as _ <-. by apply Hfr.
  - unfold push_back in Hrun. destruct (decide (head = 0)) as [->|Hne].
    + rewrite fpush_back_sentinel in Hrun.
      destruct (fpush_front_nodes p v 0 Hh Hf) as (p1 & Hrun1 & _ & Hfr & _).
      rewrite Hrun in Hrun1. injection Hrun1 as _ <-. by apply Hfr.
    + destruct (chain_snoc_inv _ _ _ Hl Hne) as (l0 & tail & ->).
      destruct (fpush_back_nodes p v head l0 tail Hne Hl Hf) as
        (p1 & _ & Hrun1 & _ & _ & _ & _ & Hfr & _).
      rewrite Hrun in Hrun1. injection Hrun1 as _ <-.
      apply Hfr; [done|]. intros ->. apply Hjl. apply elem_of_app.
      right. by left.
  - destruct (decide (head = 0)) as [->|Hne].
    + rewrite free_sentinel in Hrun. by injection Hrun as _ <-.
    + destruct (chain_cons_inv _ _ _ Hl Hne) as (nd & l' & -> & Hnd & _).
      destruct (free_nodes p head nd Hnd) as (p1 & Hrun1 & _ & _ & Hfr & _).
      rewrite Hrun in Hrun1. injection Hrun1 as _ <-.
      apply Hfr. intros ->. apply Hjl. by left.
  - destruct (decide (head = 0)) as [->|Hne].
    + rewrite free_list_sentinel in Hrun. by injection Hrun as _ <-.
    + destruct (chain_snoc_inv _ _ _ Hl Hne) as (l0 & tail & ->).
      destruct (free_list_nodes p head l0 tail Hne Hl) as
        (p1 & _ & Hrun1 & _ & _ & _ & _ & Hfr & _).
      rewrite Hrun in Hrun1. injection Hrun1 as _ <-.
      apply Hfr. intros ->. apply Hjl. apply elem_of_app. right. by left.
Qed.

(** X16. A call that takes a list head, made on a list that reaches the
    sentinel while the free chain reaches it too, writes only to nodes of
    that list, to nodes of the free chain and to the node it appends: every
    other node of the pool is as before when the call returns. *)
Theorem list_call_writes_own_nodes_only p c head l fl r p' :
  call_head c = Some head -> chain p head l ->
  chain p (free_node_list p) fl -> exec c p = Ret r p' ->
  forall j, j ∉ l -> j ∉ fl -> j <> pool_size p + 1 ->
            node_at p' j = node_at p j.
Proof.
  intros Hc Hl Hfl Hrun j Hjl Hjf Hjs.
  by apply (list_call_frame p c head l fl r p').
Qed.

(** X17. For a caller that respects the lists, a call on one list leaves
    every other list it holds as it was: the other list is still held, and
    its traversal yields the same values after the call as before. *)
Theorem owned_call_keeps_other_lists st c head other st' :
  owned_state st -> owned c st -> call_head c = Some head ->
  other ∈ lists st -> other <> head ->
  client_exec c st = Some st' ->
  other ∈ lists st' /\
  exists ws,
    traverse other (store st) = Ret ws (store st) /\
    traverse other (store st') = Ret ws (store st').
Proof.
  intros Hwf%owned_state_well_formed Hown Hc Hother Hne Hexec.
  assert (head = 0 \/ head ∈ lists st) as Hh.
  { destruct c; try done; injection Hc as ->; exact Hown. }
  destruct (well_formed_list_call_returns st c head Hwf Hown Hc) as
    (got & p' & Hrun).
  unfold client_exec in Hexec. rewrite Hrun in Hexec. injection Hexec as <-.
  assert (track c (reply_index got) (lists st) = hand_over head got (lists st))
    as -> by (destruct c; try done; by injection Hc as ->).
  assert (other ∈ filter (fun k => k <> head) (lists st)) as Hfilter
    by (by apply list_elem_of_filter).
  split.
  { simpl. unfold hand_over. apply elem_of_app. by right. }
  destruct (well_formed_select st head Hwf Hh) as
    (l & rest & fl & Hl & Hfl & Hrest & _ & _ & _ & Hrestd).
  destruct (chains_lookup _ _ _ _ Hrest Hfilter) as (lo & Hlo & Hsub).
  destruct (lseg_values _ _ _ _ Hlo) as (ws & Hws).
  assert (forall j, j ∈ lo -> node_at p' j = node_at (store st) j) as Hsame.
  { intros j Hj. destruct (Hrestd j (Hsub j Hj)) as (Hjl & Hjf & Hjs).
    by eapply list_call_frame. }
  exists ws. split; [by eapply traverse_chain|]. simpl.
  eapply traverse_chain.
  - by eapply lseg_ext; [|exact Hlo].
  - rewrite <- Hws. apply value_at_fmap_ext. intros j Hj. unfold value_at.
    by rewrite Hsame.
Qed.

(** ** free_list and free, node by node *)

Lemma free_each_chain l p head fl fuel :
  chain p head l -> chain p (free_node_list p) fl ->
  (forall i, i ∈ l -> i ∉ fl) -> (length l < fuel)%nat ->
  exists p',
    free_each fuel head p = Ret 0 p' /\
    chain p' (free_node_list p') (rev l ++ fl) /\
    pool_size p' = pool_size p /\
    (forall j, value_at p' j = value_at p j).
Proof.
  revert p head fl fuel. induction l as [|i l IH];
    intros p head fl fuel Hl Hfl Hdisj Hfuel;
    (destruct fuel as [|fuel]; [simpl in Hfuel; lia|]).
  - apply chain_nil in Hl as ->. by exists p.
  - pose proof Hl as [-> _].
    assert (i <> 0) as Hi.
    { destruct Hl as [_ (nd & Hnd & _)]. intros ->. done. }
    destruct (free_lists p i (i :: l) fl Hi Hl Hfl) as
      (nd & l' & p1 & [= <-] & Hnd & Hrun & Hl' & Hfl1 & Hframe & Hsize).
    { apply Hdisj. by left. }
    destruct (free_nodes p i nd Hnd) as (p1' & Hrun' & Hhead & _).
    rewrite Hrun in Hrun'. injection Hrun' as <-.
    pose proof (chain_NoDup _ _ _ Hl) as [Hnotin _]%NoDup_cons.
    destruct (IH p1 (Node_next nd) (i :: fl) fuel Hl' Hfl1) as
      (p' & Hrun2 & Hfl' & Hsize' & Hvals).
    { intros k Hk [->|Hk']%elem_of_cons; [done|].
      apply (Hdisj k); [by right | done]. }
    { simpl in Hfuel. lia. }
    exists p'. split.
    { simpl. apply is_empty_false in Hi. rewrite Hi. unfold bind.
      by rewrite Hrun. }
    split; [simpl; by rewrite <- app_assoc|]. split; [lia|].
    intros j. rewrite Hvals. unfold value_at.
    destruct (decide (j = i)) as [->|Hj]; [by rewrite Hhead, Hnd|].
    by rewrite Hframe.
Qed.

(** X18. [free_list] frees the nodes that freeing the list node by node
    with [free] frees.  On a list that reaches the sentinel and shares no
    node with the free chain, the free chain reaching the sentinel too, both
    end with the sentinel as head, the same size and the same values in all
    nodes; the free chain is then the old one preceded by the nodes of the
    list, in list order after [free_list] and in reverse order after the
    node-by-node loop. *)
Theorem free_list_frees_what_free_frees p head l fl fuel :
  head <> 0 -> chain p head l -> chain p (free_node_list p) fl ->
  (forall i, i ∈ l -> i ∉ fl) -> (length l < fuel)%nat ->
  exists p1 p2,
    free_list head p = Ret new_list p1 /\
    free_each fuel head p = Ret new_list p2 /\
    chain p1 (free_node_list p1) (l ++ fl) /\
    chain p2 (free_node_list p2) (rev l ++ fl) /\
    pool_size p1 = pool_size p /\ pool_size p2 = pool_size p /\
    (forall j, value_at p1 j = value_at p j /\ value_at p2 j = value_at p j).
Proof.
  intros Hh Hl Hfl Hdisj Hfuel.
  destruct (free_each_chain l p head fl fuel Hl Hfl Hdisj Hfuel) as
    (p2 & Hrun2 & Hfl2 & Hsize2 & Hvals2).
  destruct (chain_snoc_inv _ _ _ Hl Hh) as (l0 & tail & ->).
  assert (tail ∈ l0 ++ [tail]) as Htin by (apply elem_of_app; right; by left).
  destruct (free_list_lists p head l0 tail fl Hh Hl Hfl (Hdisj _ Htin)) as
    (p1 & Hrun1 & Hfl1 & _ & _ & Hsize1).
  destruct (free_list_nodes p head l0 tail Hh Hl) as
    (p1' & ndt & Hrun1' & Hndt & _ & Ht & _ & Hframe & _).
  rewrite Hrun1 in Hrun1'. injection Hrun1' as <-.
  exists p1, p2. do 6 (split; [done|]).
  intros j. split; [|done]. unfold value_at.
  destruct (decide (j = tail)) as [->|Hj]; [by rewrite Ht, Hndt|].
  by rewrite Hframe.
Qed.

End ListPoolMore.

(** * Concrete runs *)

Lemma two_nodes_run :
  run [call_push_back 10 0; call_push_back 20 1] empty_pool = Some two_nodes.
Proof. reflexivity. Qed.

(** The scenario of the documentation: two values pushed at the back of an
    empty list, read back, and the head freed. *)
Example two_nodes_first_push :
  push_back 10 0 empty_pool
  = Ret 1 {| pool := [mkNode 10 0]; free_node_list := 0 |}.
Proof. reflexivity. Qed.

Example two_nodes_second_push :
  push_back 20 1 {| pool := [mkNode 10 0]; free_node_list := 0 |}
  = Ret 1 two_nodes.
Proof. reflexivity. Qed.

Example two_nodes_read :
  next 1 two_nodes = Ret 2 two_nodes /\
  value 2 two_nodes = Ret 20 two_nodes /\
  traverse 1 two_nodes = Ret [10; 20] two_nodes.
Proof. repeat split. Qed.

Example two_nodes_free_head :
  free 1 two_nodes
  = Ret 2 {| pool := [mkNode 10 0; mkNode 20 0]; free_node_list := 1 |} /\
  is_empty 2 = false /\
  traverse 2 {| pool := [mkNode 10 0; mkNode 20 0]; free_node_list := 1 |}
  = Ret [20] {| pool := [mkNode 10 0; mkNode 20 0]; free_node_list := 1 |}.
Proof. repeat split. Qed.

Lemma two_nodes_chain : chain two_nodes 1 [1; 2].
Proof.
  split; [done|]. eexists. split; [reflexivity|]. simpl.
  split; [done|]. eexists. split; reflexivity.
Defined.

Lemma freed_one_chain : chain freed_one (free_node_list freed_one) [1].
Proof. split; [done|]. eexists. split; reflexivity. Defined.

Lemma one_held_one_free_run :
  run [call_push_front 10 0; call_push_front 20 0; call_free 2] empty_pool
  = Some one_held_one_free.
Proof. reflexivity. Qed.

Lemma looped_never_ends fuel : get_tail_loop fuel looped 1 = Diverges.
Proof. induction fuel as [|fuel IH]; [done | exact IH]. Qed.

(** ** C1 *)

Lemma push_back_head_beyond_size_unchecked_witness :
  5 <> 0 /\ pool_size two_nodes < 5 /\
  (push_back 7 5 two_nodes = Undefined /\
   exists what,
     push_front 7 5 two_nodes = Throw (invalid_argument what) two_nodes).
Proof.
  assert (5 <> 0) as H1 by discriminate.
  assert (pool_size two_nodes < 5) as H2 by reflexivity.
  exact (conj H1 (conj H2
           (push_back_head_beyond_size_unchecked two_nodes 7 5 H1 H2))).
Defined.

(** ** C3 *)

Lemma value_next_reject_sentinel_and_beyond_size_witness :
  (3 = 0 \/ pool_size two_nodes < 3) /\
  ((exists what, value 3 two_nodes = Throw (invalid_argument what) two_nodes) /\
   (exists what, next 3 two_nodes = Throw (invalid_argument what) two_nodes) /\
   (exists what,
      set_value 3 7 two_nodes = Throw (invalid_argument what) two_nodes) /\
   (exists what,
      set_next 3 1 two_nodes = Throw (invalid_argument what) two_nodes)).
Proof.
  assert (3 = 0 \/ pool_size two_nodes < 3) as H by (right; reflexivity).
  exact (conj H
           (value_next_reject_sentinel_and_beyond_size two_nodes 3 7 1 H)).
Defined.

(** ** C10: the node read here is on the free chain *)

Lemma value_next_accept_every_handle_in_range_witness :
  reachable freed_one (free_node_list freed_one) 1 /\
  1 <= 1 <= pool_size freed_one /\
  exists nd,
    node_at freed_one 1 = Some nd /\
    value 1 freed_one = Ret (Node_value nd) freed_one /\
    next 1 freed_one = Ret (Node_next nd) freed_one /\
    set_value 1 7 freed_one =
      Ret tt (store_node freed_one 1 (assign_value 7 nd)) /\
    set_next 1 1 freed_one =
      Ret tt (store_node freed_one 1 (assign_next 1 nd)).
Proof.
  assert (1 <= 1 <= pool_size freed_one) as H by (split; discriminate).
  split; [by eapply reachable_here|].
  exact (conj H (value_next_accept_every_handle_in_range freed_one 1 7 1 H)).
Defined.

(** ** C4 *)

Lemma free_spec_witness :
  free 0 two_nodes = Ret 0 two_nodes /\
  (exists what, free 5 two_nodes = Throw (invalid_argument what) two_nodes) /\
  (exists nd p',
     node_at two_nodes 1 = Some nd /\
     free 1 two_nodes = Ret (Node_next nd) p' /\
     node_at p' 1 =
       Some (mkNode (Node_value nd) (free_node_list two_nodes)) /\
     free_node_list p' = 1 /\
     (forall j, j <> 1 -> node_at p' j = node_at two_nodes j) /\
     pool_size p' = pool_size two_nodes).
Proof.
  assert (5 <> 0) as H1 by discriminate.
  assert (pool_size two_nodes < 5) as H2 by reflexivity.
  assert (1 <= 1 <= pool_size two_nodes) as H3 by (split; discriminate).
  exact (conj (proj1 (free_spec two_nodes 0) eq_refl)
           (conj (proj1 (proj2 (free_spec two_nodes 5)) H1 H2)
                 (proj2 (proj2 (free_spec two_nodes 1)) H3))).
Defined.

(** ** C8 *)

Lemma Iter_increment_at_end_is_noop_witness :
  current (end_iter 0 1) = end_ /\
  (Iter_preincrement (end_iter 0 1) two_nodes = Some (end_iter 0 1, []) /\
   Iter_postincrement (end_iter 0 1) two_nodes =
     Some ((end_iter 0 1, end_iter 0 1), [])).
Proof.
  exact (conj eq_refl
           (Iter_increment_at_end_is_noop two_nodes (end_iter 0 1) eq_refl)).
Defined.

(** ** C2 *)

Lemma push_back_order_witness :
  chain freed_one (free_node_list freed_one) [1] /\
  exists head p',
    push_back_all [10; 20; 30] new_list freed_one = Ret head p' /\
    traverse head p' = Ret [10; 20; 30] p'.
Proof.
  exact (conj freed_one_chain
           (push_back_order freed_one [10; 20; 30] [1] freed_one_chain)).
Defined.

(** After a node has been freed twice the free chain is a cycle, and the
    second [push_back] takes the node that holds the first value. *)
Lemma push_back_order_fails_after_double_free :
  run [call_push_front 1 0; call_free 1; call_free 1] empty_pool
    = Some double_freed /\
  push_back_all [5; 6] new_list double_freed
    = Ret 1 {| pool := [mkNode 6 0]; free_node_list := 1 |} /\
  traverse 1 {| pool := [mkNode 6 0]; free_node_list := 1 |}
    = Ret [6] {| pool := [mkNode 6 0]; free_node_list := 1 |} /\
  ~ (exists head p',
       push_back_all [5; 6] new_list double_freed = Ret head p' /\
       traverse head p' = Ret [5; 6] p').
Proof.
  split; [reflexivity|]. split; [reflexivity|]. split; [reflexivity|].
  intros (head & p' & Hrun & Htr).
  vm_compute in Hrun. injection Hrun as <- <-. vm_compute in Htr. discriminate.
Qed.

(** ** C5 *)

Lemma size_conservation_witness :
  pool_size (Value:=N) empty_pool <= pool_size two_nodes /\
  pool_size {| pool := [mkNode 7 0]; free_node_list := 0 |}
    = pool_size (Value:=N) empty_pool + 1 /\
  pool_size {| pool := [mkNode 9 0]; free_node_list := 1 |}
    = pool_size freed_one /\
  (exists fl', [1] = free_node_list freed_one :: fl' /\
               chain {| pool := [mkNode 7 0]; free_node_list := 0 |} 0 fl') /\
  (exists fl', [2] = free_node_list one_held_one_free :: fl' /\
               chain {| pool := [mkNode 10 2; mkNode 30 0];
                        free_node_list := 0 |} 0 fl').
Proof.
  destruct (size_conservation (Value:=N)) as (Ha & Hb & Hc & Hd & He).
  split; [exact (Ha _ _ _ two_nodes_run)|].
  split.
  { exact (Hb empty_pool 7 0 1 _ (or_introl eq_refl) eq_refl). }
  split.
  { refine (Hc freed_one 9 1 1 _ (or_intror eq_refl) _). discriminate. }
  split.
  { refine (Hd freed_one 7 0 1 _ [1] eq_refl _ freed_one_chain).
    discriminate. }
  refine (He one_held_one_free 30 1 1 _ [2] eq_refl _ _ _).
  - discriminate.
  - split; [done|]. eexists. split; reflexivity.
  - intros tail [= <-]. intros Hin. apply list_elem_of_singleton in Hin.
    discriminate.
Defined.

(** [push_back] on a head that has been freed: the node is at once the tail
    of the list and the only node of the free chain, and it is still the
    only node of the free chain afterwards. *)
Lemma push_back_on_freed_head_keeps_free_chain :
  run [call_push_front 1 0; call_free 1] empty_pool = Some freed_one /\
  free_node_list freed_one <> 0 /\
  chain freed_one (free_node_list freed_one) [1] /\
  push_back 9 1 freed_one
    = Ret 1 {| pool := [mkNode 9 0]; free_node_list := 1 |} /\
  chain {| pool := [mkNode 9 0]; free_node_list := 1 |} 1 [1] /\
  ~ (exists fl',
       [1] = free_node_list freed_one :: fl' /\
       chain {| pool := [mkNode 9 0]; free_node_list := 1 |} 1 fl').
Proof.
  split; [reflexivity|]. split; [discriminate|].
  split; [exact freed_one_chain|]. split; [reflexivity|].
  split.
  { split; [done|]. eexists. split; reflexivity. }
  intros (fl' & [= <-] & Hc). discriminate Hc.
Qed.

(** ** C6 *)

Lemma free_list_spec_witness :
  free_list 0 two_nodes = Ret 0 two_nodes /\
  (exists what,
     free_list 5 two_nodes = Throw (invalid_argument what) two_nodes) /\
  (exists ndt p',
     free_list 1 two_nodes = Ret new_list p' /\
     node_at two_nodes 2 = Some ndt /\
     node_at p' 2 =
       Some (mkNode (Node_value ndt) (free_node_list two_nodes)) /\
     free_node_list p' = 1 /\
     (forall j, j <> 2 -> node_at p' j = node_at two_nodes j) /\
     pool_size p' = pool_size two_nodes /\
     (forall fl, chain two_nodes (free_node_list two_nodes) fl -> 2 ∉ fl ->
                 chain p' (free_node_list p') ([1; 2] ++ fl))).
Proof.
  assert (5 <> 0) as H1 by discriminate.
  assert (pool_size two_nodes < 5) as H2 by reflexivity.
  assert (1 <> 0) as H3 by discriminate.
  exact (conj (proj1 (free_list_spec two_nodes 0) eq_refl)
           (conj (proj1 (proj2 (free_list_spec two_nodes 5)) H1 H2)
                 (proj2 (proj2 (free_list_spec two_nodes 1))
                    [1; 2] 2 H3 two_nodes_chain eq_refl))).
Defined.

(** The head of a list whose only node has been made its own successor is
    in range, and [free_list] walks round it for ever. *)
Lemma free_list_never_ends_on_cycle :
  run [call_push_front 1 0; call_set_next 1 1] empty_pool = Some looped /\
  1 <> 0 /\ 1 <= pool_size looped /\
  free_list 1 looped = Diverges /\
  (forall fuel, get_tail_loop fuel looped 1 = Diverges) /\
  ~ (exists p', free_list 1 looped = Ret new_list p').
Proof.
  split; [reflexivity|]. split; [discriminate|]. split; [discriminate|].
  split; [reflexivity|]. split; [exact looped_never_ends|].
  intros (p' & H). discriminate H.
Qed.

(** ** C7 *)

Lemma push_back_spec_witness :
  push_back 7 0 two_nodes = push_front 7 0 two_nodes /\
  exists new p',
    push_back 7 1 two_nodes = Ret 1 p' /\
    new = (if free_node_list two_nodes =? 0 then pool_size two_nodes + 1
           else free_node_list two_nodes) /\
    node_at p' new = Some (mkNode 7 end_) /\
    (2 <> free_node_list two_nodes -> next_at p' 2 = Some new).
Proof.
  assert (1 <> 0) as H1 by discriminate.
  assert (free_node_list two_nodes <= pool_size two_nodes) as H2
    by discriminate.
  exact (conj (proj1 (push_back_spec two_nodes 7 0) eq_refl)
           (proj2 (push_back_spec two_nodes 7 1)
              [1; 2] 2 H1 two_nodes_chain eq_refl H2)).
Defined.

Lemma push_back_never_ends_on_cycle :
  run [call_push_front 1 0; call_set_next 1 1] empty_pool = Some looped /\
  1 <> 0 /\ 1 <= pool_size looped /\
  push_back 9 1 looped = Diverges /\
  (forall fuel, get_tail_loop fuel looped 1 = Diverges) /\
  ~ (exists p', push_back 9 1 looped = Ret 1 p').
Proof.
  split; [reflexivity|]. split; [discriminate|]. split; [discriminate|].
  split; [reflexivity|]. split; [exact looped_never_ends|].
  intros (p' & H). discriminate H.
Qed.

(** ** C9 *)

Lemma two_nodes_owned :
  owned_state {| store := two_nodes; lists := [1] |}.
Proof.
  eapply (owned_call _ (call_push_back 20 1));
    [eapply (owned_call _ (call_push_back 10 0));
       [apply owned_fresh | by left | reflexivity]
    | right; by left | reflexivity].
Defined.

Lemma owned_nodes_partitioned_witness :
  owned_state {| store := two_nodes; lists := [1] |} /\
  partitioned {| store := two_nodes; lists := [1] |}.
Proof.
  exact (conj two_nodes_owned (owned_nodes_partitioned _ two_nodes_owned)).
Defined.

(** [free] on a handle inside a list the client still holds: the node is
    on the free chain and still in the list. *)
Lemma freed_inside_is_public : public_state freed_inside.
Proof.
  eapply (public_call _ (call_free 1));
    [eapply (public_call _ (call_push_front 2 1));
       [eapply (public_call _ (call_push_front 1 0));
          [apply public_fresh | reflexivity]
       | reflexivity]
    | reflexivity].
Qed.

Lemma public_nodes_not_partitioned :
  public_state freed_inside /\
  1 <= 1 <= pool_size (store freed_inside) /\
  in_a_list freed_inside 1 /\ in_free_chain freed_inside 1 /\
  ~ (forall st : client N, public_state st -> partitioned st).
Proof.
  assert (in_a_list freed_inside 1) as Hlist.
  { exists 2. split; [by left|].
    eapply reachable_next; [reflexivity|]. by eapply reachable_here. }
  assert (in_free_chain freed_inside 1) as Hfree by (by eapply reachable_here).
  assert (1 <= 1 <= pool_size (store freed_inside)) as Hr
    by (split; discriminate).
  split; [exact freed_inside_is_public|]. do 3 (split; [done|]).
  intros Hall.
  destruct (Hall _ freed_inside_is_public 1 Hr) as [_ Hboth]. by apply Hboth.
Qed.

(** * Concrete runs of the further properties *)

Lemma two_nodes_values : value_at two_nodes <$> [1; 2] = Some <$> [10; 20].
Proof. reflexivity. Defined.

Lemma one_held_chain : chain one_held_one_free 1 [1].
Proof. split; [done|]. eexists. split; reflexivity. Defined.

Lemma one_held_free_chain :
  chain one_held_one_free (free_node_list one_held_one_free) [2].
Proof. split; [done|]. eexists. split; reflexivity. Defined.

Lemma one_held_disjoint : forall i : N, i ∈ [1] -> i ∉ [2].
Proof.
  intros i Hi%list_elem_of_singleton Hi'%list_elem_of_singleton. congruence.
Defined.

Lemma two_lists_owned : owned_state two_lists.
Proof.
  eapply (owned_call _ (call_push_front 20 0));
    [eapply (owned_call _ (call_push_front 10 0));
       [apply owned_fresh | by left | reflexivity]
    | by left | reflexivity].
Defined.

Lemma push_front_reads_back_witness :
  push_front 7 0 freed_one
    = Ret 1 {| pool := [mkNode 7 0]; free_node_list := 0 |} /\
  (1 = (if free_node_list freed_one =? 0 then pool_size freed_one + 1
        else free_node_list freed_one) /\
   value 1 {| pool := [mkNode 7 0]; free_node_list := 0 |}
     = Ret 7 {| pool := [mkNode 7 0]; free_node_list := 0 |} /\
   next 1 {| pool := [mkNode 7 0]; free_node_list := 0 |}
     = Ret 0 {| pool := [mkNode 7 0]; free_node_list := 0 |} /\
   (forall j, j <> 1 ->
      node_at {| pool := [mkNode 7 0]; free_node_list := 0 |} j
      = node_at freed_one j)).
Proof.
  exact (conj eq_refl (push_front_reads_back freed_one 7 0 1 _ eq_refl)).
Defined.

Lemma push_front_conses_witness :
  chain two_nodes 1 [1; 2] /\
  (value_at two_nodes <$> [1; 2] = Some <$> [10; 20]) /\
  free_node_list two_nodes <= pool_size two_nodes /\
  (free_node_list two_nodes ∉ [1; 2]) /\
  exists new p',
    push_front 5 1 two_nodes = Ret new p' /\
    traverse new p' = Ret [5; 10; 20] p'.
Proof.
  assert (free_node_list two_nodes <= pool_size two_nodes) as H1
    by discriminate.
  assert (free_node_list two_nodes ∉ [1; 2]) as H2.
  { intros [H|[H|H]%elem_of_cons]%elem_of_cons; try discriminate.
    by apply elem_of_nil in H. }
  exact (conj two_nodes_chain (conj two_nodes_values (conj H1 (conj H2
           (push_front_conses two_nodes 5 1 [1; 2] [10; 20]
              two_nodes_chain two_nodes_values H1 H2))))).
Defined.

Lemma push_front_order_witness :
  chain freed_one (free_node_list freed_one) [1] /\
  exists head p',
    push_front_all [10; 20; 30] new_list freed_one = Ret head p' /\
    traverse head p' = Ret (rev [10; 20; 30]) p'.
Proof.
  exact (conj freed_one_chain
           (push_front_order freed_one [10; 20; 30] [1] freed_one_chain)).
Defined.

Lemma push_back_snocs_witness :
  chain one_held_one_free 1 [1] /\
  (value_at one_held_one_free <$> [1] = Some <$> [10]) /\
  chain one_held_one_free (free_node_list one_held_one_free) [2] /\
  (forall i : N, i ∈ [1] -> i ∉ [2]) /\
  exists head' p',
    push_back 30 1 one_held_one_free = Ret head' p' /\
    (1 <> 0 -> head' = 1) /\
    traverse head' p' = Ret ([10] ++ [30]) p'.
Proof.
  exact (conj one_held_chain (conj eq_refl (conj one_held_free_chain
           (conj one_held_disjoint
              (push_back_snocs one_held_one_free 30 1 [1] [10] [2]
                 one_held_chain eq_refl one_held_free_chain
                 one_held_disjoint))))).
Defined.

Lemma free_drops_first_witness :
  chain two_nodes 1 [1; 2] /\
  (value_at two_nodes <$> [1; 2] = Some <$> 10 :: [20]) /\
  exists h' p',
    free 1 two_nodes = Ret h' p' /\
    traverse h' p' = Ret [20] p' /\
    (h' = 0 <-> [20] = []).
Proof.
  exact (conj two_nodes_chain (conj two_nodes_values
           (free_drops_first two_nodes 1 [1; 2] 10 [20]
              two_nodes_chain two_nodes_values))).
Defined.

Lemma free_undoes_push_front_witness :
  push_front 5 1 two_nodes
    = Ret 3 {| pool := [mkNode 10 2; mkNode 20 0; mkNode 5 1];
               free_node_list := 0 |} /\
  exists p2,
    free 3 {| pool := [mkNode 10 2; mkNode 20 0; mkNode 5 1];
              free_node_list := 0 |} = Ret 1 p2 /\
    free_node_list p2 = 3 /\
    pool_size p2
      = pool_size {| pool := [mkNode 10 2; mkNode 20 0; mkNode 5 1];
                     free_node_list := 0 |} /\
    (forall j, j <> 3 -> node_at p2 j = node_at two_nodes j).
Proof.
  exact (conj eq_refl (free_undoes_push_front two_nodes 5 1 3 _ eq_refl)).
Defined.

Lemma free_then_push_front_reuses_witness :
  1 <= 1 <= pool_size two_nodes /\ 2 <= pool_size two_nodes /\
  exists nx p1 p2,
    free 1 two_nodes = Ret nx p1 /\
    push_front 7 2 p1 = Ret 1 p2 /\
    pool_size p2 = pool_size two_nodes /\
    free_node_list p2 = free_node_list two_nodes /\
    node_at p2 1 = Some (mkNode 7 2) /\
    (forall j, j <> 1 -> node_at p2 j = node_at two_nodes j).
Proof.
  assert (1 <= 1 <= pool_size two_nodes) as H1 by (split; discriminate).
  assert (2 <= pool_size two_nodes) as H2 by discriminate.
  exact (conj H1 (conj H2
           (free_then_push_front_reuses two_nodes 1 7 2 H1 H2))).
Defined.

Lemma free_list_then_push_front_all_reuses_witness :
  1 <> 0 /\ chain two_nodes 1 [1; 2] /\
  length [7; 8] = length [1; 2] /\
  exists p1 h p2,
    free_list 1 two_nodes = Ret new_list p1 /\
    push_front_all [7; 8] new_list p1 = Ret h p2 /\
    pool_size p2 = pool_size two_nodes /\
    free_node_list p2 = free_node_list two_nodes /\
    last [1; 2] = Some h /\
    traverse h p2 = Ret (rev [7; 8]) p2.
Proof.
  assert (1 <> 0) as H1 by discriminate.
  exact (conj H1 (conj two_nodes_chain (conj eq_refl
           (free_list_then_push_front_all_reuses two_nodes 1 [1; 2] [7; 8]
              H1 two_nodes_chain eq_refl)))).
Defined.

Lemma get_tail_returns_last_witness :
  get_tail 1 two_nodes = Ret 2 two_nodes /\
  (two_nodes = two_nodes /\ exists l0, chain two_nodes 1 (l0 ++ [2])).
Proof.
  exact (conj eq_refl
           (proj1 (proj1 (get_tail_returns_last two_nodes 1) 2 two_nodes)
              eq_refl)).
Defined.

Lemma assign_then_read_witness :
  set_value 2 7 two_nodes
    = Ret tt {| pool := [mkNode 10 2; mkNode 7 0]; free_node_list := 0 |} /\
  (value 2 {| pool := [mkNode 10 2; mkNode 7 0]; free_node_list := 0 |}
     = Ret 7 {| pool := [mkNode 10 2; mkNode 7 0]; free_node_list := 0 |} /\
   next_at {| pool := [mkNode 10 2; mkNode 7 0]; free_node_list := 0 |} 2
     = next_at two_nodes 2 /\
   (forall j, j <> 2 ->
      node_at {| pool := [mkNode 10 2; mkNode 7 0]; free_node_list := 0 |} j
      = node_at two_nodes j) /\
   free_node_list {| pool := [mkNode 10 2; mkNode 7 0]; free_node_list := 0 |}
     = free_node_list two_nodes /\
   pool_size {| pool := [mkNode 10 2; mkNode 7 0]; free_node_list := 0 |}
     = pool_size two_nodes).
Proof.
  exact (conj eq_refl
           (proj1 (assign_then_read two_nodes 2 7 0) _ eq_refl)).
Defined.


Lemma Iter_reads_what_accessors_read_witness :
  1 <= 1 <= pool_size two_nodes /\
  exists nd,
    node_at two_nodes 1 = Some nd /\
    Iter_deref (begin_ 0 1) two_nodes = Some (Node_value nd, [1]) /\
    value 1 two_nodes = Ret (Node_value nd) two_nodes /\
    Iter_preincrement (begin_ 0 1) two_nodes
      = Some (begin_ 0 (Node_next nd), [1]) /\
    next 1 two_nodes = Ret (Node_next nd) two_nodes.
Proof.
  assert (1 <= 1 <= pool_size two_nodes) as H by (split; discriminate).
  exact (conj H (proj1 (Iter_reads_what_accessors_read two_nodes 0 1) H)).
Defined.

Lemma Iter_eq_equivalence_witness :
  Iter_eq (begin_ 0 2) (mkIter 0 2) = true /\
  Iter_eq (mkIter 0 2) (begin_ 0 2) = true /\
  Iter_eq (begin_ 0 2) (begin_ 0 2) = true /\
  Iter_pool (begin_ 0 2) <> Iter_pool (begin_ 1 1) /\
  Iter_eq (begin_ 0 2) (begin_ 1 1) = false /\
  Iter_eq (begin_ 0 2) (begin_ 1 2) = false.
Proof.
  assert (Iter_eq (begin_ 0 2) (mkIter 0 2) = true) as H1 by reflexivity.
  assert (Iter_eq (mkIter 0 2) (begin_ 0 2) = true) as H2 by reflexivity.
  assert (Iter_pool (begin_ 0 2) <> Iter_pool (begin_ 1 1)) as H3
    by discriminate.
  assert (Iter_pool (begin_ 0 2) <> Iter_pool (begin_ 1 2)) as H4
    by discriminate.
  exact (conj H1 (conj H2 (conj
           (proj1 (proj2 (proj2 (proj2
              (Iter_eq_equivalence (begin_ 0 2) (mkIter 0 2) (begin_ 0 2)
                 0 0 0)))) H1 H2)
           (conj H3 (conj
              (proj1 (proj2 (proj2 (proj2 (proj2
                 (Iter_eq_equivalence (begin_ 0 2) (begin_ 1 1) (begin_ 0 2)
                    0 0 0))))) H3)
              (proj1 (proj2 (proj2 (proj2 (proj2
                 (Iter_eq_equivalence (begin_ 0 2) (begin_ 1 2) (begin_ 0 2)
                    0 0 0))))) H4)))))).
Defined.

Lemma owned_list_calls_return_witness :
  owned_state two_lists /\
  owned (call_free_list 2) two_lists /\
  call_head (call_free_list (Value:=N) 2) = Some 2 /\
  (forall what p',
     exec (call_free_list 2) (store two_lists)
     <> Throw (invalid_argument what) p') /\
  exec (call_free_list 2) (store two_lists) <> Undefined /\
  exec (call_free_list 2) (store two_lists) <> Diverges.
Proof.
  assert (owned (call_free_list 2) two_lists) as H by (right; by left).
  exact (conj two_lists_owned (conj H (conj eq_refl
           (owned_list_calls_return two_lists (call_free_list 2) 2
              two_lists_owned H eq_refl)))).
Defined.

Lemma owned_lists_traverse_witness :
  owned_state two_lists /\ (2 ∈ lists two_lists) /\
  exists ws,
    ws <> [] /\ traverse 2 (store two_lists) = Ret ws (store two_lists).
Proof.
  assert (2 ∈ lists two_lists) as H by (by left).
  exact (conj two_lists_owned (conj H
           (owned_lists_traverse two_lists 2 two_lists_owned H))).
Defined.

Lemma two_lists_chain : chain (store two_lists) 2 [2].
Proof. split; [done|]. eexists. split; reflexivity. Defined.

(** The node [1] of the other list is in the vector, outside the list
    headed by [2] and outside the free chain: it is kept. *)
Lemma list_call_writes_own_nodes_only_witness :
  call_head (call_push_back (Value:=N) 30 2) = Some 2 /\
  chain (store two_lists) 2 [2] /\
  chain (store two_lists) (free_node_list (store two_lists)) [] /\
  exec (call_push_back 30 2) (store two_lists)
    = Ret (reply_index 2)
          {| pool := [mkNode 10 0; mkNode 20 3; mkNode 30 0];
             free_node_list := 0 |} /\
  (1 ∉ [2]) /\ (1 ∉ []) /\ 1 <> pool_size (store two_lists) + 1 /\
  node_at (store two_lists) 1 = Some (mkNode 10 0) /\
  node_at {| pool := [mkNode 10 0; mkNode 20 3; mkNode 30 0];
             free_node_list := 0 |} 1
    = node_at (store two_lists) 1.
Proof.
  assert (1 ∉ [2]) as H1.
  { intros H%list_elem_of_singleton. discriminate. }
  assert (1 ∉ @nil N) as H2 by apply not_elem_of_nil.
  assert (1 <> pool_size (store two_lists) + 1) as H3 by discriminate.
  exact (conj eq_refl (conj two_lists_chain (conj eq_refl (conj eq_refl
           (conj H1 (conj H2 (conj H3 (conj eq_refl
              (list_call_writes_own_nodes_only (store two_lists)
                 (call_push_back 30 2) 2 [2] [] _ _ eq_refl two_lists_chain
                 eq_refl eq_refl 1 H1 H2 H3))))))))).
Defined.

Lemma owned_call_keeps_other_lists_witness :
  owned_state two_lists /\
  owned (call_push_back 30 2) two_lists /\
  call_head (call_push_back (Value:=N) 30 2) = Some 2 /\
  (1 ∈ lists two_lists) /\ 1 <> 2 /\
  client_exec (call_push_back 30 2) two_lists
    = Some {| store := {| pool := [mkNode 10 0; mkNode 20 3; mkNode 30 0];
                          free_node_list := 0 |};
              lists := [2; 1] |} /\
  ((1 ∈ [2; 1]) /\
   exists ws,
     traverse 1 (store two_lists) = Ret ws (store two_lists) /\
     traverse 1 {| pool := [mkNode 10 0; mkNode 20 3; mkNode 30 0];
                   free_node_list := 0 |}
       = Ret ws {| pool := [mkNode 10 0; mkNode 20 3; mkNode 30 0];
                   free_node_list := 0 |}).
Proof.
  assert (owned (call_push_back 30 2) two_lists) as H1 by (right; by left).
  assert (1 ∈ lists two_lists) as H2 by (right; by left).
  assert (1 <> 2) as H3 by discriminate.
  exact (conj two_lists_owned (conj H1 (conj eq_refl (conj H2 (conj H3
           (conj eq_refl
              (owned_call_keeps_other_lists two_lists (call_push_back 30 2)
                 2 1 _ two_lists_owned H1 eq_refl H2 H3 eq_refl))))))).
Defined.

Lemma free_list_frees_what_free_frees_witness :
  1 <> 0 /\ chain one_held_one_free 1 [1] /\
  chain one_held_one_free (free_node_list one_held_one_free) [2] /\
  (forall i : N, i ∈ [1] -> i ∉ [2]) /\ (length [1%N] < 2)%nat /\
  exists p1 p2,
    free_list 1 one_held_one_free = Ret new_list p1 /\
    free_each 2 1 one_held_one_free = Ret new_list p2 /\
    chain p1 (free_node_list p1) ([1] ++ [2]) /\
    chain p2 (free_node_list p2) (rev [1] ++ [2]) /\
    pool_size p1 = pool_size one_held_one_free /\
    pool_size p2 = pool_size one_held_one_free /\
    (forall j, value_at p1 j = value_at one_held_one_free j /\
               value_at p2 j = value_at one_held_one_free j).
Proof.
  assert (1 <> 0) as H1 by discriminate.
  assert (length [1%N] < 2)%nat as H2 by (apply le_n).
  exact (conj H1 (conj one_held_chain (conj one_held_free_chain
           (conj one_held_disjoint (conj H2
              (free_list_frees_what_free_frees one_held_one_free 1 [1] [2] 2
                 H1 one_held_chain one_held_free_chain one_held_disjoint
                 H2)))))).
Defined.
